(** * oasdiff: schema-list diff, method diff and diff result

    A shallow embedding of the source files at hand: in the diff
    package, the schema-list diff (SchemaListDiff and its helpers), the
    method diff (MethodDiff) and the top-level result (DiffResult with its
    regular-expression filter); in the report/text package, the text
    report.  Functions of the repository that these files call and that
    are not at hand are parameters (sections and classes) or, where a
    property is about them, definitions modelled from the specification
    and marked as such.

    Conventions.
    - A Go pointer [*T] is an [option T]; [None] is the nil pointer.
    - A Go slice is the list of its elements and a Go map is a [gmap];
      the nil slice and the empty slice are both [[]], the nil map and the
      empty map are both [∅] (the code only takes [len] of them, ranges
      over them and appends or stores into fresh ones).
    - Go's [int] is a 64-bit two's-complement integer: a [Z] with the
      wrap-around of [+] written out ([int_add]).
    - Ranging over a Go map visits the keys in an unspecified order; where
      the loop body can fail, the model ranges in the order of
      [map_to_list]. *)

From Stdlib Require Import ZArith String Ascii List Lia DecimalString.
From stdpp Require Import base gmap strings list fin_maps.

Open Scope Z_scope.

(** ** Machine integers and formatting *)

Definition int_wrap (z : Z) : Z := (z + 2 ^ 63) mod 2 ^ 64 - 2 ^ 63.

Definition int_add (a b : Z) : Z := int_wrap (a + b).

(** [len] of a slice, as an [int]. *)
Definition len {A} (l : list A) : Z := Z.of_nat (length l).

(** [fmt.Sprintf("#%d", n)] *)
Definition Sprintf_hash_d (n : Z) : string :=
  ("#" ++ NilZero.string_of_int (Z.to_int n))%string.

(** ** Outcomes: a value, a Go [error], or a run-time panic *)

Inductive Result (error A : Type) : Type :=
| Ok (a : A)
| Err (e : error)
| Panic (msg : string).

Arguments Ok {error A} a.
Arguments Err {error A} e.
Arguments Panic {error A} msg.

(** ** Schema references (openapi3.SchemaRef) *)

Record SchemaRef (Schema : Type) : Type := mkSchemaRef {
  Ref : string;
  Value : option Schema
}.

Arguments mkSchemaRef {Schema} Ref Value.
Arguments Ref {Schema} s.
Arguments Value {Schema} s.

#[global] Instance SchemaRef_eq_dec {Schema} `{EqDecision Schema} :
  EqDecision (SchemaRef Schema).
Proof. solve_decision. Defined.

(** [SchemaRefs] is [[]*SchemaRef]. *)
Abbreviation SchemaRefPtr Schema := (option (SchemaRef Schema)).
Abbreviation SchemaRefs Schema := (list (option (SchemaRef Schema))).

(** [SchemaRefMap] is [map[string]*SchemaRef]. *)
Abbreviation SchemaRefMap Schema := (gmap string (option (SchemaRef Schema))).

(** [ModifiedSchemas] is [map[string]*SchemaDiff]. *)
Abbreviation ModifiedSchemas SchemaDiff := (gmap string (option SchemaDiff)).

Record SchemaListDiff (SchemaDiff : Type) : Type := mkSchemaListDiff {
  Added : Z;
  Deleted : Z;
  Modified : ModifiedSchemas SchemaDiff
}.

Arguments mkSchemaListDiff {SchemaDiff} Added Deleted Modified.
Arguments Added {SchemaDiff} s.
Arguments Deleted {SchemaDiff} s.
Arguments Modified {SchemaDiff} s.

(** The zero value [SchemaListDiff{}]. *)
Definition SchemaListDiff_zero {SchemaDiff} : SchemaListDiff SchemaDiff :=
  mkSchemaListDiff 0 0 ∅.

(** [func (diff *SchemaListDiff) Empty() bool] *)
Definition SchemaListDiff_Empty {SchemaDiff}
    (diff : option (SchemaListDiff SchemaDiff)) : bool :=
  match diff with
  | None => true
  | Some diff =>
      (Added diff =? 0) && (Deleted diff =? 0) && (Z.of_nat (size (Modified diff)) =? 0)
  end.

(** Modelled from the spec: ModifiedSchemas.combine is not among the
    sources; the data model says that combine "performs a disjoint-key
    union on modified".  The union is taken key by key, the receiver's
    entries first and the argument's stored over them. *)
Definition ModifiedSchemas_combine {SchemaDiff}
    (modifiedSchemas other : ModifiedSchemas SchemaDiff) : ModifiedSchemas SchemaDiff :=
  other ∪ modifiedSchemas.

(** [SchemaListDiff.combine] returns a pointer to a fresh SchemaListDiff;
    its error is always nil. *)
Definition SchemaListDiff_combine {SchemaDiff}
    (diff other : SchemaListDiff SchemaDiff) : option (SchemaListDiff SchemaDiff) :=
  Some {| Added := int_add (Added diff) (Added other);
          Deleted := int_add (Deleted diff) (Deleted other);
          Modified := ModifiedSchemas_combine (Modified diff) (Modified other) |}.

(** ** Predicates and the filter on schema references *)

Definition isSchemaInline {Schema} (schemaRef : SchemaRefPtr Schema) : bool :=
  match schemaRef with
  | None => false
  | Some s => String.eqb (Ref s) EmptyString
  end.

Definition isSchemaRef {Schema} (schemaRef : SchemaRefPtr Schema) : bool :=
  match schemaRef with
  | None => false
  | Some s => negb (String.eqb (Ref s) EmptyString)
  end.

(** [filterSchemaRefs]: the loop collects the accepted elements in
    [result]; the function returns [schemaRefs]. *)
Definition filterSchemaRefs {Schema} (schemaRefs : SchemaRefs Schema)
    (filter : SchemaRefPtr Schema → bool) : SchemaRefs Schema :=
  let result :=
    fold_left (λ result schemaRef,
                 if filter schemaRef then result ++ [schemaRef] else result)
              schemaRefs [] in
  schemaRefs.

(** [toSchemaRefsMap]: a nil element passes the test [!isSchemaInline] and
    its [Ref] is then read, a nil dereference. *)
Fixpoint toSchemaRefsMap_loop {Schema} {error} (schemaRefs : SchemaRefs Schema)
    (result : SchemaRefMap Schema) : Result error (SchemaRefMap Schema) :=
  match schemaRefs with
  | [] => Ok result
  | schemaRef :: rest =>
      if negb (isSchemaInline schemaRef) then
        match schemaRef with
        | None => Panic "nil pointer dereference"
        | Some s => toSchemaRefsMap_loop rest (<[Ref s := schemaRef]> result)
        end
      else toSchemaRefsMap_loop rest result
  end.

Definition toSchemaRefsMap {Schema} {error} (schemaRefs : SchemaRefs Schema) :
    Result error (SchemaRefMap Schema) :=
  toSchemaRefsMap_loop schemaRefs ∅.

(** ** Matching inline schemas by structural equality *)

Section Matching.
Context {Schema : Type} `{EqDecision Schema}.

(** [reflect.DeepEqual] on two [*SchemaRef]: both nil, or both non-nil
    with deeply equal pointees. *)
Definition DeepEqual (schemaRef1 schemaRef2 : SchemaRefPtr Schema) : bool :=
  bool_decide (schemaRef1 = schemaRef2).

Definition alreadyMatched (index : nat) (matched : gset nat) : bool :=
  bool_decide (index ∈ matched).

(** The loop of [findIndenticalSchema], from position [index2] on. *)
Fixpoint findIndenticalSchema_from (index2 : nat) (schemaRef1 : SchemaRefPtr Schema)
    (schemasRefs2 : SchemaRefs Schema) (matched : gset nat) : bool * nat :=
  match schemasRefs2 with
  | [] => (false, 0%nat)
  | schemaRef2 :: rest =>
      if alreadyMatched index2 matched then
        findIndenticalSchema_from (S index2) schemaRef1 rest matched
      else if DeepEqual schemaRef1 schemaRef2 then (true, index2)
      else findIndenticalSchema_from (S index2) schemaRef1 rest matched
  end.

Definition findIndenticalSchema (schemaRef1 : SchemaRefPtr Schema)
    (schemasRefs2 : SchemaRefs Schema) (matched : gset nat) : bool * nat :=
  findIndenticalSchema_from 0 schemaRef1 schemasRefs2 matched.

(** The loop of [getGroupDifference], from position [index1] on. *)
Fixpoint getGroupDifference_from (index1 : nat) (schemaRefs1 schemaRefs2 : SchemaRefs Schema)
    (notContained : list nat) (matched : gset nat) : list nat :=
  match schemaRefs1 with
  | [] => notContained
  | schemaRef1 :: rest =>
      let '(found, index2) := findIndenticalSchema schemaRef1 schemaRefs2 matched in
      if negb found then
        getGroupDifference_from (S index1) rest schemaRefs2 (notContained ++ [index1]) matched
      else
        getGroupDifference_from (S index1) rest schemaRefs2 notContained ({[index2]} ∪ matched)
  end.

(** [getGroupDifference]; its error is always nil. *)
Definition getGroupDifference (schemaRefs1 schemaRefs2 : SchemaRefs Schema) : list nat :=
  getGroupDifference_from 0 schemaRefs1 schemaRefs2 [] ∅.
End Matching.

(** ** The schema-list diff

    [getSchemaDiff] (the recursive schema diff) and the method
    [SchemaDiff.Empty] are not among the sources: they are parameters.
    [getSchemaDiff] receives the configuration and the cycle-guard state,
    which it may update, and returns a pointer to a SchemaDiff or an
    error. *)

Section SchemaListsDiff.
Context {Schema : Type} `{EqDecision Schema}.
Context {SchemaDiff Config state error : Type}.

(** Computations over the cycle-guard state that may fail. *)
Definition M (A : Type) : Type := state → Result error A * state.

#[local] Instance M_ret : MRet M := λ A a st, (Ok a, st).

#[local] Instance M_bind : MBind M := λ A B k m st,
  match m st with
  | (Ok a, st') => k a st'
  | (Err e, st') => (Err e, st')
  | (Panic msg, st') => (Panic msg, st')
  end.

(** A computation that does not touch the state. *)
Definition lift {A} (r : Result error A) : M A := λ st, (r, st).

(** Indexing a slice; out of range is a run-time panic. *)
Definition index {A} (l : list A) (i : nat) : M A :=
  match l !! i with
  | Some a => mret a
  | None => lift (Panic "index out of range")
  end.

Variable SchemaDiff_Empty : option SchemaDiff → bool.
Variable getSchemaDiff :
  Config → SchemaRefPtr Schema → SchemaRefPtr Schema → M (option SchemaDiff).

(** Modelled from the spec: ModifiedSchemas.addSchemaDiff is not among
    the sources; by the keyed-collection diff "a key is placed in
    modified only if its value-diff is non-empty", the value-diff being
    the recursive schema diff. *)
Definition addSchemaDiff (config : Config) (modifiedSchemas : ModifiedSchemas SchemaDiff)
    (schemaName : string) (schemaRef1 schemaRef2 : SchemaRefPtr Schema) :
    M (ModifiedSchemas SchemaDiff) :=
  diff ← getSchemaDiff config schemaRef1 schemaRef2;
  mret (if negb (SchemaDiff_Empty diff) then <[schemaName := diff]> modifiedSchemas
        else modifiedSchemas).

(** First loop of [getSchemaMapsRefsDiff], over the entries of [schemaMap1]. *)
Fixpoint getSchemaMapsRefsDiff_loop1 (config : Config) (schemaMap2 : SchemaRefMap Schema)
    (entries : list (string * SchemaRefPtr Schema))
    (deleted : Z) (modified : ModifiedSchemas SchemaDiff) :
    M (Z * ModifiedSchemas SchemaDiff) :=
  match entries with
  | [] => mret (deleted, modified)
  | (ref, schema1) :: rest =>
      match schemaMap2 !! ref with
      | Some schema2 =>
          modified ← addSchemaDiff config modified ref schema1 schema2;
          getSchemaMapsRefsDiff_loop1 config schemaMap2 rest deleted modified
      | None =>
          getSchemaMapsRefsDiff_loop1 config schemaMap2 rest (int_add deleted 1) modified
      end
  end.

(** Second loop of [getSchemaMapsRefsDiff], over the keys of [schemaMap2]. *)
Definition getSchemaMapsRefsDiff_loop2 (schemaMap1 schemaMap2 : SchemaRefMap Schema) : Z :=
  map_fold (λ ref _ added,
              match schemaMap1 !! ref with
              | Some _ => added
              | None => int_add added 1
              end) 0 schemaMap2.

Definition getSchemaMapsRefsDiff (config : Config)
    (schemaMap1 schemaMap2 : SchemaRefMap Schema) : M (SchemaListDiff SchemaDiff) :=
  '(deleted, modified) ←
    getSchemaMapsRefsDiff_loop1 config schemaMap2 (map_to_list schemaMap1) 0 ∅;
  let added := getSchemaMapsRefsDiff_loop2 schemaMap1 schemaMap2 in
  mret {| Added := added; Deleted := deleted; Modified := modified |}.

(** [getSchemaListsRefsDiff] compares schemas by $ref name.  Both maps
    are built before the call. *)
Definition getSchemaListsRefsDiff (config : Config)
    (schemaRefs1 schemaRefs2 : SchemaRefs Schema) : M (SchemaListDiff SchemaDiff) :=
  schemaMap1 ← lift (toSchemaRefsMap schemaRefs1);
  schemaMap2 ← lift (toSchemaRefsMap schemaRefs2);
  getSchemaMapsRefsDiff config schemaMap1 schemaMap2.

(** [getSchemaListsInlineDiff] compares schemas by their syntax. *)
Definition getSchemaListsInlineDiff (config : Config)
    (schemaRefs1 schemaRefs2 : SchemaRefs Schema) : M (SchemaListDiff SchemaDiff) :=
  let added := getGroupDifference schemaRefs2 schemaRefs1 in
  let deleted := getGroupDifference schemaRefs1 schemaRefs2 in
  if (len added =? 1) && (len deleted =? 1) then
    deleted0 ← index deleted 0;
    added0 ← index added 0;
    schemaRef1 ← index schemaRefs1 deleted0;
    schemaRef2 ← index schemaRefs2 added0;
    d ← getSchemaDiff config schemaRef1 schemaRef2;
    if SchemaDiff_Empty d then mret SchemaListDiff_zero
    else
      mret {| Added := 0; Deleted := 0;
              Modified := {[ Sprintf_hash_d (int_add 1 (Z.of_nat deleted0)) := d ]} |}
  else
    mret {| Added := len added; Deleted := len deleted; Modified := ∅ |}.

Definition getSchemaListsDiffInternal (config : Config)
    (schemaRefs1 schemaRefs2 : SchemaRefs Schema) : M (option (SchemaListDiff SchemaDiff)) :=
  diffRefs ← getSchemaListsRefsDiff config
               (filterSchemaRefs schemaRefs1 isSchemaRef)
               (filterSchemaRefs schemaRefs2 isSchemaRef);
  diffInline ← getSchemaListsInlineDiff config
                 (filterSchemaRefs schemaRefs1 isSchemaInline)
                 (filterSchemaRefs schemaRefs2 isSchemaInline);
  mret (SchemaListDiff_combine diffRefs diffInline).

Definition getSchemaListsDiff (config : Config)
    (schemaRefs1 schemaRefs2 : SchemaRefs Schema) : M (option (SchemaListDiff SchemaDiff)) :=
  diff ← getSchemaListsDiffInternal config schemaRefs1 schemaRefs2;
  if SchemaListDiff_Empty diff then mret None else mret diff.
End SchemaListsDiff.

(** ** The method diff

    The sub-diff types, the functions that compute them and their
    emptiness checks live in other files of the package, and the fields of
    an operation have types of the openapi3 library; they are gathered in
    one interface. *)

(** A value passed as [interface{}] to [getValueDiff]. *)
Inductive GoValue : Type :=
| VString (s : string)
| VBool (b : bool).

Class SubDiffs : Type := {
  openapi3_Parameters : Type;
  openapi3_RequestBodyRef : Type;
  openapi3_Responses : Type;
  openapi3_Callbacks : Type;
  openapi3_Servers : Type;
  StringsDiff : Type;
  ValueDiff : Type;
  ParametersDiff : Type;
  RequestBodyDiff : Type;
  ResponsesDiff : Type;
  CallbacksDiff : Type;
  ServersDiff : Type;
  getStringsDiff : list string → list string → option StringsDiff;
  getValueDiff : GoValue → GoValue → option ValueDiff;
  getParametersDiff : openapi3_Parameters → openapi3_Parameters → option ParametersDiff;
  getRequestBodyDiff : openapi3_RequestBodyRef → openapi3_RequestBodyRef → option RequestBodyDiff;
  getResponsesDiff : openapi3_Responses → openapi3_Responses → option ResponsesDiff;
  getCallbacksDiff : openapi3_Callbacks → openapi3_Callbacks → option CallbacksDiff;
  getServersDiff : openapi3_Servers → openapi3_Servers → option ServersDiff;
  StringsDiff_empty : option StringsDiff → bool;
  ValueDiff_empty : option ValueDiff → bool;
  ParametersDiff_empty : option ParametersDiff → bool;
  RequestBodyDiff_empty : option RequestBodyDiff → bool;
  ResponsesDiff_empty : option ResponsesDiff → bool;
  CallbacksDiff_empty : option CallbacksDiff → bool;
  ServersDiff_empty : option ServersDiff → bool
}.

Section MethodDiffs.
Context `{SubDiffs}.

(** The fields of [openapi3.Operation] that the diff reads. *)
Record Operation : Type := mkOperation {
  op_Tags : list string;
  op_Summary : string;
  op_Description : string;
  op_OperationID : string;
  op_Parameters : openapi3_Parameters;
  op_RequestBody : openapi3_RequestBodyRef;
  op_Responses : openapi3_Responses;
  op_Callbacks : openapi3_Callbacks;
  op_Deprecated : bool;
  op_Servers : openapi3_Servers
}.

Record MethodDiff : Type := mkMethodDiff {
  TagsDiff : option StringsDiff;
  SummaryDiff : option ValueDiff;
  DescriptionDiff : option ValueDiff;
  OperationIDDiff : option ValueDiff;
  ParametersDiff_ : option ParametersDiff;
  RequestBodyDiff_ : option RequestBodyDiff;
  ResponsesDiff_ : option ResponsesDiff;
  CallbacksDiff_ : option CallbacksDiff;
  DeprecatedDiff : option ValueDiff;
  ServersDiff_ : option ServersDiff
}.


(** [p == nil] *)
Definition is_nil {A} (p : option A) : bool :=
  match p with None => true | Some _ => false end.

(** [MethodDiff.empty]: [*methodDiff == MethodDiff{}].  Struct equality
    compares the ten pointer fields with the zero value's, which are nil. *)
Definition MethodDiff_empty (methodDiff : MethodDiff) : bool :=
  is_nil (TagsDiff methodDiff) && is_nil (SummaryDiff methodDiff) &&
  is_nil (DescriptionDiff methodDiff) && is_nil (OperationIDDiff methodDiff) &&
  is_nil (ParametersDiff_ methodDiff) && is_nil (RequestBodyDiff_ methodDiff) &&
  is_nil (ResponsesDiff_ methodDiff) && is_nil (CallbacksDiff_ methodDiff) &&
  is_nil (DeprecatedDiff methodDiff) && is_nil (ServersDiff_ methodDiff).

(** [if diff := f(..); !diff.empty() { field = diff }] on a nil field. *)
Definition unless_empty {A} (empty : option A → bool) (diff : option A) : option A :=
  if negb (empty diff) then diff else None.

(** [getMethodDiff], on two non-nil operations. *)
Definition getMethodDiff (pathItem1 pathItem2 : Operation) : MethodDiff :=
  {| TagsDiff := getStringsDiff (op_Tags pathItem1) (op_Tags pathItem2);
     SummaryDiff :=
       getValueDiff (VString (op_Summary pathItem1)) (VString (op_Summary pathItem2));
     DescriptionDiff :=
       getValueDiff (VString (op_Description pathItem1))
                    (VString (op_Description pathItem2));
     OperationIDDiff :=
       getValueDiff (VString (op_OperationID pathItem1))
                    (VString (op_OperationID pathItem2));
     ParametersDiff_ :=
       unless_empty ParametersDiff_empty
         (getParametersDiff (op_Parameters pathItem1) (op_Parameters pathItem2));
     RequestBodyDiff_ :=
       unless_empty RequestBodyDiff_empty
         (getRequestBodyDiff (op_RequestBody pathItem1) (op_RequestBody pathItem2));
     ResponsesDiff_ :=
       unless_empty ResponsesDiff_empty
         (getResponsesDiff (op_Responses pathItem1) (op_Responses pathItem2));
     CallbacksDiff_ :=
       unless_empty CallbacksDiff_empty
         (getCallbacksDiff (op_Callbacks pathItem1) (op_Callbacks pathItem2));
     DeprecatedDiff :=
       getValueDiff (VBool (op_Deprecated pathItem1)) (VBool (op_Deprecated pathItem2));
     ServersDiff_ :=
       unless_empty ServersDiff_empty
         (getServersDiff (op_Servers pathItem1) (op_Servers pathItem2)) |}.

(** The emptiness the specification asks for: the conjunction of every
    sub-diff's own emptiness check.  This is not the code's [empty]; the
    two are compared below. *)
Definition MethodDiff_empty_by_conjunction (methodDiff : MethodDiff) : bool :=
  StringsDiff_empty (TagsDiff methodDiff) && ValueDiff_empty (SummaryDiff methodDiff) &&
  ValueDiff_empty (DescriptionDiff methodDiff) &&
  ValueDiff_empty (OperationIDDiff methodDiff) &&
  ParametersDiff_empty (ParametersDiff_ methodDiff) &&
  RequestBodyDiff_empty (RequestBodyDiff_ methodDiff) &&
  ResponsesDiff_empty (ResponsesDiff_ methodDiff) &&
  CallbacksDiff_empty (CallbacksDiff_ methodDiff) &&
  ValueDiff_empty (DeprecatedDiff methodDiff) && ServersDiff_empty (ServersDiff_ methodDiff).

(** The ten sub-diffs of two operations, as their functions compute
    them, are all empty. *)
Definition sub_diffs_empty (pathItem1 pathItem2 : Operation) : bool :=
  StringsDiff_empty (getStringsDiff (op_Tags pathItem1) (op_Tags pathItem2)) &&
  ValueDiff_empty
    (getValueDiff (VString (op_Summary pathItem1)) (VString (op_Summary pathItem2))) &&
  ValueDiff_empty
    (getValueDiff (VString (op_Description pathItem1))
                  (VString (op_Description pathItem2))) &&
  ValueDiff_empty
    (getValueDiff (VString (op_OperationID pathItem1))
                  (VString (op_OperationID pathItem2))) &&
  ParametersDiff_empty
    (getParametersDiff (op_Parameters pathItem1) (op_Parameters pathItem2)) &&
  RequestBodyDiff_empty
    (getRequestBodyDiff (op_RequestBody pathItem1) (op_RequestBody pathItem2)) &&
  ResponsesDiff_empty
    (getResponsesDiff (op_Responses pathItem1) (op_Responses pathItem2)) &&
  CallbacksDiff_empty
    (getCallbacksDiff (op_Callbacks pathItem1) (op_Callbacks pathItem2)) &&
  ValueDiff_empty
    (getValueDiff (VBool (op_Deprecated pathItem1)) (VBool (op_Deprecated pathItem2))) &&
  ServersDiff_empty (getServersDiff (op_Servers pathItem1) (op_Servers pathItem2)).
End MethodDiffs.

(** ** The diff result and its regular-expression filter

    The regexp package of the Go library is an interface: compiling a
    pattern gives a compiled expression or an error, and a compiled
    expression decides whether a string contains a match. *)

Class RegexpLib : Type := {
  Regexp : Type;
  CompileError : Type;
  regexp_Compile : string → Regexp + CompileError;
  MatchString : Regexp → string → bool
}.

(** What [log.Errorf] is called with in the filter. *)
Inductive LogEntry `{RegexpLib} : Type :=
| FailedToCompile (filter : string) (err : CompileError).

Section DiffResults.
Context `{RegexpLib}.
Context {EndpointDiff : Type}.

(** [ModifiedEndpoints] is a map from endpoint to its diff. *)
Record DiffResult : Type := mkDiffResult {
  AddedEndpoints : list string;
  DeletedEndpoints : list string;
  ModifiedEndpoints : gmap string EndpointDiff
}.

Definition DiffResult_empty (diffResult : DiffResult) : bool :=
  (len (AddedEndpoints diffResult) =? 0) &&
  (len (DeletedEndpoints diffResult) =? 0) &&
  (Z.of_nat (size (ModifiedEndpoints diffResult)) =? 0).

Definition newDiffResult : DiffResult :=
  {| AddedEndpoints := []; DeletedEndpoints := []; ModifiedEndpoints := ∅ |}.

Definition addAddedEndpoint (diffResult : DiffResult) (endpoint : string) : DiffResult :=
  {| AddedEndpoints := AddedEndpoints diffResult ++ [endpoint];
     DeletedEndpoints := DeletedEndpoints diffResult;
     ModifiedEndpoints := ModifiedEndpoints diffResult |}.

Definition addDeletedEndpoint (diffResult : DiffResult) (endpoint : string) : DiffResult :=
  {| AddedEndpoints := AddedEndpoints diffResult;
     DeletedEndpoints := DeletedEndpoints diffResult ++ [endpoint];
     ModifiedEndpoints := ModifiedEndpoints diffResult |}.

Definition filterEndpoints (endpoints : list string) (r : Regexp) : list string :=
  fold_left (λ result endpoint,
               if MatchString r endpoint then result ++ [endpoint] else result)
            endpoints [].

Definition filterModifiedEndpoints (modifiedEndpoints : gmap string EndpointDiff)
    (r : Regexp) : gmap string EndpointDiff :=
  map_fold (λ endpoint endpointDiff result,
              if MatchString r endpoint then <[endpoint := endpointDiff]> result
              else result)
           ∅ modifiedEndpoints.

(** [FilterByRegex] updates the result in place and returns nothing: the
    model returns the result after the call and what was logged. *)
Definition FilterByRegex (diffResult : DiffResult) (filter : string) :
    DiffResult * list LogEntry :=
  match regexp_Compile filter with
  | inr err => (diffResult, [FailedToCompile filter err])
  | inl r =>
      ({| AddedEndpoints := filterEndpoints (AddedEndpoints diffResult) r;
          DeletedEndpoints := filterEndpoints (DeletedEndpoints diffResult) r;
          ModifiedEndpoints := filterModifiedEndpoints (ModifiedEndpoints diffResult) r |},
       [])
  end.

(** The result is filled through the two adders only; a caller is a
    sequence of such calls on a new result. *)
Inductive EndpointCall : Type :=
| CallAddAdded (endpoint : string)
| CallAddDeleted (endpoint : string).

Definition run_call (diffResult : DiffResult) (c : EndpointCall) : DiffResult :=
  match c with
  | CallAddAdded endpoint => addAddedEndpoint diffResult endpoint
  | CallAddDeleted endpoint => addDeletedEndpoint diffResult endpoint
  end.

Definition run_calls (calls : list EndpointCall) : DiffResult :=
  fold_left run_call calls newDiffResult.

Definition added_of (calls : list EndpointCall) : list string :=
  omap (λ c, match c with CallAddAdded e => Some e | _ => None end) calls.

Definition deleted_of (calls : list EndpointCall) : list string :=
  omap (λ c, match c with CallAddDeleted e => Some e | _ => None end) calls.
End DiffResults.

(** Lexicographic (bytewise) order on endpoint keys, as Go compares strings. *)
Fixpoint sorted_strings (l : list string) : bool :=
  match l with
  | [] => true
  | x :: rest =>
      match rest with
      | [] => true
      | y :: _ => String.leb x y && sorted_strings rest
      end
  end.

(** ** Small instances of the interfaces

    The parameters above are instantiated here so that the definitions
    can be evaluated on concrete documents. *)

(** A schema with three of the fields of [openapi3.Schema]. *)
Record SmallSchema : Type := mkSmallSchema {
  schema_Type : string;
  schema_Format : string;
  schema_Title : string
}.

#[global] Instance SmallSchema_eq_dec : EqDecision SmallSchema.
Proof. solve_decision. Defined.

Record SmallSchemaDiff : Type := mkSmallSchemaDiff {
  TypeDiff : option (string * string);
  FormatDiff : option (string * string)
}.

Definition small_getValueDiff (value1 value2 : string) : option (string * string) :=
  if String.eqb value1 value2 then None else Some (value1, value2).

(** Modelled from the spec: getSchemaDiff is not among the sources.  The
    recursive schema diff "diffs two schema definitions field by field";
    of the fields it lists, this schema has the type and the format, each
    a leaf value diff.  The title is not among the diffed fields.  The
    cycle-guard state is a list of reference-name pairs and is left as it
    was found. *)
Definition small_getSchemaDiff (config : unit)
    (schemaRef1 schemaRef2 : SchemaRefPtr SmallSchema) :
    M (state := list (string * string)) (error := string) (option SmallSchemaDiff) :=
  λ st,
    match schemaRef1, schemaRef2 with
    | Some s1, Some s2 =>
        match Value s1, Value s2 with
        | Some v1, Some v2 =>
            (Ok (Some {| TypeDiff := small_getValueDiff (schema_Type v1) (schema_Type v2);
                         FormatDiff :=
                           small_getValueDiff (schema_Format v1) (schema_Format v2) |}),
             st)
        | _, _ => (Err "schema reference is nil", st)
        end
    | _, _ => (Err "schema reference is nil", st)
    end.

(** Modelled from the spec: a schema diff is "empty ⇔ no field differs";
    the nil pointer is empty. *)
Definition small_SchemaDiff_Empty (diff : option SmallSchemaDiff) : bool :=
  match diff with
  | None => true
  | Some d =>
      match TypeDiff d, FormatDiff d with
      | None, None => true
      | _, _ => false
      end
  end.

(** An inline schema and a referenced schema. *)
Definition inline_schema (type format title : string) : SchemaRefPtr SmallSchema :=
  Some (mkSchemaRef EmptyString (Some (mkSmallSchema type format title))).

Definition ref_schema (ref type format title : string) : SchemaRefPtr SmallSchema :=
  Some (mkSchemaRef ref (Some (mkSmallSchema type format title))).

(** Sub-diffs of an operation: collections are lists of names, and their
    diff lists the names added and deleted. *)
Record NamesDiff : Type := mkNamesDiff {
  names_Added : list string;
  names_Deleted : list string
}.

Definition name_in (x : string) (l : list string) : bool :=
  existsb (String.eqb x) l.

(** Modelled from the spec: the keyed-collection diff produces "added
    (keys only in the second)" and "deleted (keys only in the first)"; it
    returns a non-nil pointer, empty or not. *)
Definition getNamesDiff (names1 names2 : list string) : option NamesDiff :=
  Some {| names_Added := List.filter (λ x, negb (name_in x names1)) names2;
          names_Deleted := List.filter (λ x, negb (name_in x names2)) names1 |}.

Definition NamesDiff_empty (diff : option NamesDiff) : bool :=
  match diff with
  | None => true
  | Some d => (len (names_Added d) =? 0) && (len (names_Deleted d) =? 0)
  end.

(** Modelled from the spec: the leaf diffs "return 'no difference'
    sentinel when equal". *)
Definition small_getStringsDiff (strings1 strings2 : list string) : option NamesDiff :=
  if NamesDiff_empty (getNamesDiff strings1 strings2) then None
  else getNamesDiff strings1 strings2.

#[global] Instance GoValue_eq_dec : EqDecision GoValue.
Proof. solve_decision. Defined.

Definition small_getGoValueDiff (value1 value2 : GoValue) : option (GoValue * GoValue) :=
  if bool_decide (value1 = value2) then None else Some (value1, value2).

Definition small_is_nil {A} (p : option A) : bool :=
  match p with None => true | Some _ => false end.

Definition SmallSubDiffs : SubDiffs :=
  {| openapi3_Parameters := list string;
     openapi3_RequestBodyRef := list string;
     openapi3_Responses := list string;
     openapi3_Callbacks := list string;
     openapi3_Servers := list string;
     getStringsDiff := small_getStringsDiff;
     getValueDiff := small_getGoValueDiff;
     getParametersDiff := getNamesDiff;
     getRequestBodyDiff := getNamesDiff;
     getResponsesDiff := getNamesDiff;
     getCallbacksDiff := getNamesDiff;
     getServersDiff := getNamesDiff;
     StringsDiff_empty := NamesDiff_empty;
     ValueDiff_empty := small_is_nil;
     ParametersDiff_empty := NamesDiff_empty;
     RequestBodyDiff_empty := NamesDiff_empty;
     ResponsesDiff_empty := NamesDiff_empty;
     CallbacksDiff_empty := NamesDiff_empty;
     ServersDiff_empty := NamesDiff_empty |}.

(** A fragment of the regexp package: the pattern [.*], and patterns
    without metacharacters, which match the strings that contain them.
    Other patterns are outside the fragment and are rejected. *)
Inductive SmallRegexp : Type :=
| MatchAll
| Literal (s : string).

Definition is_meta (c : ascii) : bool :=
  existsb (Ascii.eqb c) (list_ascii_of_string "\.+*?()|[]{}^$").

Definition small_Compile (pattern : string) : SmallRegexp + string :=
  if String.eqb pattern ".*" then inl MatchAll
  else if existsb is_meta (list_ascii_of_string pattern)
       then inr "error parsing regexp"%string
       else inl (Literal pattern).

(** Does [s] contain [sub]? *)
Fixpoint contains (sub s : string) : bool :=
  String.prefix sub s ||
  match s with
  | EmptyString => false
  | String _ rest => contains sub rest
  end.

Definition small_MatchString (r : SmallRegexp) (s : string) : bool :=
  match r with
  | MatchAll => true
  | Literal sub => contains sub s
  end.

Definition SmallRegexpLib : RegexpLib :=
  {| Regexp := SmallRegexp;
     CompileError := string;
     regexp_Compile := small_Compile;
     MatchString := small_MatchString |}.

(** Concrete inline schemas: [schema_two] and [schema_two_retitled] differ
    in their title only. *)
Definition schema_one : SchemaRefPtr SmallSchema := inline_schema "string" "date" "one".
Definition schema_two : SchemaRefPtr SmallSchema := inline_schema "string" "byte" "two".
Definition schema_two_retitled : SchemaRefPtr SmallSchema :=
  inline_schema "string" "byte" "deux".
Definition schema_three : SchemaRefPtr SmallSchema := inline_schema "integer" "int32" "three".
Definition schema_four : SchemaRefPtr SmallSchema := inline_schema "integer" "int64" "four".

(** Two referenced schemas. *)
Definition schema_Pet : SchemaRefPtr SmallSchema :=
  ref_schema "#/components/schemas/Pet" "object" "none" "Pet".
Definition schema_Owner : SchemaRefPtr SmallSchema :=
  ref_schema "#/components/schemas/Owner" "string" "none" "Owner".

(** Every element of the list is an inline schema. *)
Definition all_inline {Schema} (l : SchemaRefs Schema) : Prop :=
  Forall (λ s, isSchemaInline s = true) l.

(** What the method diff relies on in the rest of the package: a nil
    sub-diff is empty, and the leaf diffs (strings, values) return nil
    whenever their result is empty. *)
Definition nil_is_empty `{SubDiffs} : Prop :=
  StringsDiff_empty None = true ∧ ValueDiff_empty None = true ∧
  ParametersDiff_empty None = true ∧ RequestBodyDiff_empty None = true ∧
  ResponsesDiff_empty None = true ∧ CallbacksDiff_empty None = true ∧
  ServersDiff_empty None = true.

Definition leaf_diffs_nil_when_empty `{SubDiffs} : Prop :=
  (∀ strings1 strings2,
     StringsDiff_empty (getStringsDiff strings1 strings2) = true →
     getStringsDiff strings1 strings2 = None)
  ∧ (∀ value1 value2,
       ValueDiff_empty (getValueDiff value1 value2) = true →
       getValueDiff value1 value2 = None).

(** A method diff whose only non-nil sub-diff is an empty parameters diff. *)
Definition method_diff_with_empty_parameters : MethodDiff (H := SmallSubDiffs) :=
  mkMethodDiff (H := SmallSubDiffs) None None None None
    (getNamesDiff ["limit"%string] ["limit"%string]) None None None None None.

Definition operation_listPets : Operation (H := SmallSubDiffs) :=
  mkOperation (H := SmallSubDiffs) ["pets"%string] "List all pets" "Returns the pets"
    "listPets" ["limit"%string] [] ["200"%string; "default"%string] [] false [].

(** A diff result over the small regexp fragment, its endpoint diffs
    numbered. *)
Definition result_pets : DiffResult (EndpointDiff := nat) :=
  {| AddedEndpoints := ["GET /pets"; "POST /users"]%string;
     DeletedEndpoints := ["GET /users"%string];
     ModifiedEndpoints := {[ "GET /pets/{id}"%string := 1%nat;
                             "PUT /users/{id}"%string := 2%nat ]} |}.

(** Every endpoint of the result satisfies [P]. *)
Definition on_endpoints {EndpointDiff} (P : string → Prop)
    (diffResult : DiffResult (EndpointDiff := EndpointDiff)) : Prop :=
  Forall P (AddedEndpoints diffResult)
  ∧ Forall P (DeletedEndpoints diffResult)
  ∧ map_Forall (λ endpoint _, P endpoint) (ModifiedEndpoints diffResult).

(** ** Auxiliary notions for the properties of the matching *)

(** The elements of [l], numbered from [k] on, whose number is not in
    [matched]: what is still available to a search. *)
Fixpoint unmatched_from {Schema} (k : nat) (l : SchemaRefs Schema)
    (matched : gset nat) : SchemaRefs Schema :=
  match l with
  | [] => []
  | x :: rest =>
      if alreadyMatched k matched then unmatched_from (S k) rest matched
      else x :: unmatched_from (S k) rest matched
  end.

(** Strictly increasing indices. *)
Fixpoint increasing (l : list nat) : Prop :=
  match l with
  | [] => True
  | i :: rest =>
      match rest with
      | [] => True
      | j :: _ => (i < j)%nat ∧ increasing rest
      end
  end.

(** The referenced schemas of a list that carry the reference name [k]. *)
Definition has_ref {Schema} (k : string) (schemaRef : SchemaRefPtr Schema) : bool :=
  match schemaRef with
  | None => false
  | Some s => String.eqb (Ref s) k && negb (String.eqb (Ref s) EmptyString)
  end.

(** [l] without the first occurrence of [x]. *)
Fixpoint remove_one {A} `{EqDecision A} (x : A) (l : list A) : list A :=
  match l with
  | [] => []
  | y :: rest => if decide (x = y) then rest else y :: remove_one x rest
  end.

(** How many elements of [l] are left over when each one is paired, in
    turn, with an occurrence of itself still available in [avail]. *)
Fixpoint leftover {A} `{EqDecision A} (l avail : list A) : nat :=
  match l with
  | [] => 0
  | x :: rest =>
      if decide (x ∈ avail) then leftover rest (remove_one x avail)
      else S (leftover rest avail)
  end.

(** ** The text report (package report/text)

    The report walks a diff and hands lines to its writer with
    [fmt.Fprintln]; what [print] returns (the byte count and the write
    error) is dropped by every caller, so the model keeps the calls made to
    the writer: one list of operands per call.  The diff types are those
    of the diff package as the report reads them: the fields it accesses,
    and their [Empty] methods as parameters.  A map is ranged over in the
    order of [map_to_list]. *)

(** One operand of a call to [fmt.Fprintln]. *)
Inductive Operand : Type :=
| OpString (s : string)
| OpValue (v : GoValue).

(** [diff.ValueDiff] *)
Record diff_ValueDiff : Type := mk_diff_ValueDiff {
  ValueDiff_From : GoValue;
  ValueDiff_To : GoValue
}.

(** The key of the modified endpoints and the element of the added and
    deleted ones. *)
Record diff_Endpoint : Type := mk_diff_Endpoint {
  Endpoint_Method : string;
  Endpoint_Path : string
}.

#[global] Instance diff_Endpoint_eq_dec : EqDecision diff_Endpoint.
Proof. solve_decision. Defined.

#[global] Instance diff_Endpoint_countable : Countable diff_Endpoint.
Proof.
  apply (inj_countable' (λ e, (Endpoint_Method e, Endpoint_Path e))
                        (λ p, mk_diff_Endpoint p.1 p.2)).
  by intros [].
Defined.

Section TextReport.
Context {diff_RequestBodyDiff diff_CallbacksDiff diff_SecurityDiff : Type}.
Context {diff_SchemaDiff diff_ContentDiff diff_ResponseDiff : Type}.

(** [diff.ParameterDiff] *)
Record diff_ParameterDiff : Type := mk_diff_ParameterDiff {
  ParameterDiff_SchemaDiff : option diff_SchemaDiff;
  ParameterDiff_ContentDiff : option diff_ContentDiff
}.

(** [diff.ParametersDiff]: parameters by location. *)
Record diff_ParametersDiff : Type := mk_diff_ParametersDiff {
  ParametersDiff_Added : gmap string (list string);
  ParametersDiff_Deleted : gmap string (list string);
  ParametersDiff_Modified : gmap string (gmap string (option diff_ParameterDiff))
}.

(** [diff.ResponsesDiff] *)
Record diff_ResponsesDiff : Type := mk_diff_ResponsesDiff {
  ResponsesDiff_Added : list string;
  ResponsesDiff_Deleted : list string;
  ResponsesDiff_Modified : gmap string (option diff_ResponseDiff)
}.

(** [diff.MethodDiff], as the report reads it. *)
Record diff_MethodDiff : Type := mk_diff_MethodDiff {
  MethodDiff_DescriptionDiff : option diff_ValueDiff;
  MethodDiff_ParametersDiff : option diff_ParametersDiff;
  MethodDiff_RequestBodyDiff : option diff_RequestBodyDiff;
  MethodDiff_ResponsesDiff : option diff_ResponsesDiff;
  MethodDiff_CallbacksDiff : option diff_CallbacksDiff;
  MethodDiff_SecurityDiff : option diff_SecurityDiff
}.

(** [diff.EndpointsDiff] *)
Record diff_EndpointsDiff : Type := mk_diff_EndpointsDiff {
  EndpointsDiff_Added : list diff_Endpoint;
  EndpointsDiff_Deleted : list diff_Endpoint;
  EndpointsDiff_Modified : gmap diff_Endpoint (option diff_MethodDiff)
}.

(** [diff.Diff] *)
Record diff_Diff : Type := mk_diff_Diff {
  Diff_EndpointsDiff : option diff_EndpointsDiff
}.

(** The [Empty] methods, on pointers. *)
Variable Diff_Empty : option diff_Diff → bool.
Variable EndpointsDiff_Empty : option diff_EndpointsDiff → bool.
Variable rMethodDiff_Empty : option diff_MethodDiff → bool.
Variable rValueDiff_Empty : option diff_ValueDiff → bool.
Variable rParametersDiff_Empty : option diff_ParametersDiff → bool.
Variable rRequestBodyDiff_Empty : option diff_RequestBodyDiff → bool.
Variable rResponsesDiff_Empty : option diff_ResponsesDiff → bool.
Variable rCallbacksDiff_Empty : option diff_CallbacksDiff → bool.
Variable rSecurityDiff_Empty : option diff_SecurityDiff → bool.
Variable rSchemaDiff_Empty : option diff_SchemaDiff → bool.
Variable rContentDiff_Empty : option diff_ContentDiff → bool.

(** Writing to the report's writer; the only failure is a panic. *)
Abbreviation W := (M (state := list (list Operand)) (error := Empty_set)).

#[local] Existing Instance M_ret.
#[local] Existing Instance M_bind.

(** Reading through a pointer. *)
Definition deref {A} (p : option A) : W A :=
  match p with
  | Some a => mret a
  | None => lift (Panic "nil pointer dereference")
  end.

(** [for _, x := range l { body }] *)
Fixpoint for_each {A} (l : list A) (body : A → W unit) : W unit :=
  match l with
  | [] => mret tt
  | x :: rest => body x;; for_each rest body
  end.

(** [Report]: the writer is the state, the report is its level. *)
Record Report : Type := mkReport { level : Z }.

Definition Report_indent (report : Report) : Report :=
  {| level := int_add (level report) 1 |}.

Definition getPrefix (level : Z) : list Operand :=
  if level =? 1 then [OpString "*"]
  else if level =? 2 then [OpString "  -"]
  else [].

Definition addPrefix (level : Z) (output : list Operand) : list Operand :=
  getPrefix level ++ output.

Definition Report_print (report : Report) (output : list Operand) : W unit :=
  λ w, (Ok tt, w ++ [addPrefix (level report) output]).

Definition Report_printResponses (report : Report) (d : option diff_ResponsesDiff) :
    W unit :=
  if rResponsesDiff_Empty d then mret tt
  else
    d ← deref d;
    for_each (ResponsesDiff_Added d)
      (λ added, Report_print report [OpString "New response:"; OpString added]);;
    for_each (ResponsesDiff_Deleted d)
      (λ deleted, Report_print report [OpString "Deleted response:"; OpString deleted]);;
    for_each (map_to_list (ResponsesDiff_Modified d))
      (λ '(response, _),
         Report_print report [OpString "Modified response:"; OpString response]).

Definition Report_printSchema (report : Report) (d : option diff_SchemaDiff) : W unit :=
  if rSchemaDiff_Empty d then mret tt else mret tt.

Definition Report_printParam (report : Report) (d : option diff_ParameterDiff) : W unit :=
  d ← deref d;
  (if negb (rSchemaDiff_Empty (ParameterDiff_SchemaDiff d)) then
     Report_print report [OpString "Schema changed"];;
     Report_printSchema report (ParameterDiff_SchemaDiff d)
   else mret tt);;
  (if negb (rContentDiff_Empty (ParameterDiff_ContentDiff d)) then
     Report_print report [OpString "Content changed"]
   else mret tt).

Definition Report_printParams (report : Report) (d : option diff_ParametersDiff) : W unit :=
  if rParametersDiff_Empty d then mret tt
  else
    d ← deref d;
    for_each (map_to_list (ParametersDiff_Added d))
      (λ '(location, params),
         for_each params
           (λ param, Report_print report
                       [OpString "New"; OpString location; OpString "param:";
                        OpString param]));;
    for_each (map_to_list (ParametersDiff_Deleted d))
      (λ '(location, params),
         for_each params
           (λ param, Report_print report
                       [OpString "Deleted"; OpString location; OpString "param:";
                        OpString param]));;
    for_each (map_to_list (ParametersDiff_Modified d))
      (λ '(location, paramDiffs),
         for_each (map_to_list paramDiffs)
           (λ '(param, paramDiff),
              Report_print report
                [OpString "Modified"; OpString location; OpString "param:";
                 OpString param];;
              Report_printParam (Report_indent report) paramDiff)).

Definition Report_printMethod (report : Report) (d : option diff_MethodDiff) : W unit :=
  if rMethodDiff_Empty d then mret tt
  else
    d ← deref d;
    (if negb (rValueDiff_Empty (MethodDiff_DescriptionDiff d)) then
       description ← deref (MethodDiff_DescriptionDiff d);
       Report_print report
         [OpString "Description changed from: "; OpValue (ValueDiff_From description);
          OpString "To:"; OpValue (ValueDiff_To description)]
     else mret tt);;
    Report_printParams report (MethodDiff_ParametersDiff d);;
    (if negb (rRequestBodyDiff_Empty (MethodDiff_RequestBodyDiff d)) then
       Report_print report [OpString "Request body changed"]
     else mret tt);;
    (if negb (rResponsesDiff_Empty (MethodDiff_ResponsesDiff d)) then
       Report_print report [OpString "Response changed"];;
       Report_printResponses (Report_indent report) (MethodDiff_ResponsesDiff d)
     else mret tt);;
    (if negb (rCallbacksDiff_Empty (MethodDiff_CallbacksDiff d)) then
       Report_print report [OpString "Callbacks changed"]
     else mret tt);;
    (if negb (rSecurityDiff_Empty (MethodDiff_SecurityDiff d)) then
       Report_print report [OpString "Security changed"]
     else mret tt).

Definition Report_Output (report : Report) (d : option diff_Diff) : W unit :=
  if Diff_Empty d then Report_print report [OpString "No changes"]
  else
    d ← deref d;
    if EndpointsDiff_Empty (Diff_EndpointsDiff d) then
      Report_print report [OpString "No endpoint changes"]
    else
      Report_print report [OpString "### New Endpoints"];;
      Report_print report [OpString "-----------------"];;
      endpoints ← deref (Diff_EndpointsDiff d);
      for_each (EndpointsDiff_Added endpoints)
        (λ added, Report_print report
                    [OpString (Endpoint_Method added); OpString (Endpoint_Path added)]);;
      Report_print report [OpString EmptyString];;
      Report_print report [OpString "### Deleted Endpoints"];;
      Report_print report [OpString "---------------------"];;
      for_each (EndpointsDiff_Deleted endpoints)
        (λ deleted, Report_print report
                      [OpString (Endpoint_Method deleted);
                       OpString (Endpoint_Path deleted)]);;
      Report_print report [OpString EmptyString];;
      Report_print report [OpString "### Modified Endpoints"];;
      Report_print report [OpString "----------------------"];;
      for_each (map_to_list (EndpointsDiff_Modified endpoints))
        (λ '(endpoint, methodDiff),
           Report_print report
             [OpString (Endpoint_Method endpoint); OpString (Endpoint_Path endpoint)];;
           Report_printMethod (Report_indent report) methodDiff;;
           Report_print report [OpString EmptyString]).
End TextReport.

(** A computation only appends to what was written, and every line it
    appends satisfies [P], however it ends. *)
Definition writes {A} (P : list Operand → Prop)
    (c : M (state := list (list Operand)) (error := Empty_set) A) : Prop :=
  ∀ w res w', c w = (res, w') → ∃ new, w' = w ++ new ∧ Forall P new.

(** The operands of the call begin with the prefix of the level. *)
Definition bulleted (level : Z) (call : list Operand) : Prop :=
  ∃ rest, call = getPrefix level ++ rest.

(** A method diff for the text report over the nil test as every
    [Empty]: a changed description, a changed request body and one new
    response. *)
Definition reported_method_diff :
    option (diff_MethodDiff (diff_RequestBodyDiff := unit) (diff_CallbacksDiff := unit)
              (diff_SecurityDiff := unit) (diff_SchemaDiff := unit)
              (diff_ContentDiff := unit) (diff_ResponseDiff := unit)) :=
  Some {| MethodDiff_DescriptionDiff :=
            Some {| ValueDiff_From := VString "List pets";
                    ValueDiff_To := VString "List all pets" |};
          MethodDiff_ParametersDiff := None;
          MethodDiff_RequestBodyDiff := Some tt;
          MethodDiff_ResponsesDiff :=
            Some {| ResponsesDiff_Added := ["201"%string];
                    ResponsesDiff_Deleted := [];
                    ResponsesDiff_Modified := ∅ |};
          MethodDiff_CallbacksDiff := None;
          MethodDiff_SecurityDiff := None |}.

(** ** The endpoint diff that fills a result

    The function that compares the endpoints of two documents and calls
    [addAddedEndpoint] and [addDeletedEndpoint] is not among the sources.
    It is modelled here from the specification's top-level entry point and
    keyed-collection diff; the result it fills, and the two adders, are
    the source's. *)

(** Modelled from the spec: the endpoint key, "an opaque unique string
    identifier METHOD PATH".  The function that forms it is not among the
    sources. *)
Definition endpoint_key (method path : string) : string :=
  (method ++ " " ++ path)%string.

(** Modelled from the spec: "build the endpoint key→operation map" of a
    document, whose paths are a "mapping path-template → mapping
    HTTP-method → Operation".  The function that builds it is not among the
    sources. *)
Definition endpoints_of {Op} (doc : gmap string (gmap string Op)) : gmap string Op :=
  list_to_map
    (flat_map (λ '(path, methods),
                 map (λ '(method, operation), (endpoint_key method path, operation))
                     (map_to_list methods))
              (map_to_list doc)).

(** Modelled from the spec: the containers of added and deleted keys "must
    be sorted deterministically (e.g., lexicographically by key)".  The
    sort is not among the sources; this one inserts each key before the
    first key that is not smaller. *)
Fixpoint insert_sorted (x : string) (l : list string) : list string :=
  match l with
  | [] => [x]
  | y :: rest => if String.leb x y then x :: l else y :: insert_sorted x rest
  end.

(** Modelled from the spec: the keys "sorted ... lexicographically by
    key", by insertion of each key into the sorted rest. *)
Definition sort_strings (l : list string) : list string :=
  foldr insert_sorted [] l.

(** Modelled from the spec: the top-level diff of the endpoints of two
    documents, which is not among the sources.  It is the keyed-collection
    diff: "added (keys only in the second), deleted (keys only in the
    first), and modified (keys in both whose values differ, mapped to the
    value-diff)", where "a key is placed in modified only if its
    value-diff is non-empty", the value-diff and its emptiness being
    supplied by the caller.  [order1] and [order2] are the orders in which
    the two maps happen to be ranged over; the keys found are sorted before
    they are added to the result with the source's adders. *)
Definition getEndpointsDiff {Op EndpointDiff} (valueDiff : Op → Op → EndpointDiff)
    (empty : EndpointDiff → bool) (order1 order2 : list string)
    (endpoints1 endpoints2 : gmap string Op) : DiffResult (EndpointDiff := EndpointDiff) :=
  let deleted := sort_strings (List.filter (λ k, is_nil (endpoints2 !! k)) order1) in
  let added := sort_strings (List.filter (λ k, is_nil (endpoints1 !! k)) order2) in
  let result := fold_left addDeletedEndpoint deleted (newDiffResult (EndpointDiff := EndpointDiff)) in
  let result := fold_left addAddedEndpoint added result in
  {| AddedEndpoints := AddedEndpoints result;
     DeletedEndpoints := DeletedEndpoints result;
     ModifiedEndpoints :=
       filter (λ kv, empty kv.2 = false) (map_zip_with valueDiff endpoints1 endpoints2) |}.

(** Modelled from the spec: the diff of two documents, "build the endpoint
    key→operation map for each of the two input documents, then apply the
    keyed-collection diff". *)
Definition getDiffResult {Op EndpointDiff} (valueDiff : Op → Op → EndpointDiff)
    (empty : EndpointDiff → bool) (order1 order2 : list string)
    (doc1 doc2 : gmap string (gmap string Op)) : DiffResult (EndpointDiff := EndpointDiff) :=
  getEndpointsDiff valueDiff empty order1 order2 (endpoints_of doc1) (endpoints_of doc2).

(** The keys of a map, in the order of [map_to_list]. *)
Definition keys_of {Op} (endpoints : gmap string Op) : list string :=
  (map_to_list endpoints).*1.

(** Two small documents: the second adds two operations on /pets and drops
    the one on /owners. *)
Definition document_one : gmap string (gmap string nat) :=
  {[ "/pets" := {[ "GET" := 1%nat ]}; "/owners" := {[ "GET" := 2%nat ]} ]}.

Definition document_two : gmap string (gmap string nat) :=
  {[ "/pets" := {[ "GET" := 1%nat; "POST" := 3%nat; "DELETE" := 4%nat ]} ]}.

(** * Properties *)

(** ** Machine integers *)

Lemma int_add_comm (a b : Z) : int_add a b = int_add b a.
Proof. unfold int_add. by rewrite Z.add_comm. Qed.

Lemma int_add_assoc (a b c : Z) :
  int_add (int_add a b) c = int_add a (int_add b c).
Proof.
  unfold int_add, int_wrap. f_equal.
  replace ((a + b + 2 ^ 63) `mod` 2 ^ 64 - 2 ^ 63 + c + 2 ^ 63)
    with ((a + b + 2 ^ 63) `mod` 2 ^ 64 + c) by lia.
  replace (a + ((b + c + 2 ^ 63) `mod` 2 ^ 64 - 2 ^ 63) + 2 ^ 63)
    with (a + (b + c + 2 ^ 63) `mod` 2 ^ 64) by lia.
  rewrite Zplus_mod_idemp_l, Zplus_mod_idemp_r. f_equal. lia.
Qed.

(** ** Appending in a loop is filtering *)

Lemma fold_left_append_if {A} (p : A → bool) (l acc : list A) :
  fold_left (λ result x, if p x then result ++ [x] else result) l acc
  = acc ++ List.filter p l.
Proof.
  revert acc. induction l as [|x l IH]; intros acc; simpl.
  - by rewrite app_nil_r.
  - rewrite IH. destruct (p x); [|done].
    by rewrite <- app_assoc.
Qed.

Lemma filterSchemaRefs_returns_its_argument {Schema} (schemaRefs : SchemaRefs Schema)
    (filter : SchemaRefPtr Schema → bool) :
  filterSchemaRefs schemaRefs filter = schemaRefs.
Proof. reflexivity. Qed.

(** ** Combining schema-list diffs *)

Section Combine.
Context {SchemaDiff : Type}.
Implicit Types X Y Z : SchemaListDiff SchemaDiff.

Lemma SchemaListDiff_eq X Y :
  Added X = Added Y → Deleted X = Deleted Y → Modified X = Modified Y → X = Y.
Proof. destruct X, Y; simpl; congruence. Qed.

(** C5: on partial results with pairwise disjoint key spaces, combine is
    associative and commutative (so in particular on the Added and Deleted
    counters, whose sums wrap around like Go's int), and the Modified map of
    a combination is the union of the two Modified maps: a key of the
    result comes from exactly one side, with its diff. *)
Theorem combine_assoc_comm_disjoint_union X Y Z :
  Modified X ##ₘ Modified Y →
  Modified Y ##ₘ Modified Z →
  Modified X ##ₘ Modified Z →
  (SchemaListDiff_combine X Y ≫= (λ XY, SchemaListDiff_combine XY Z))
    = (SchemaListDiff_combine Y Z ≫= (λ YZ, SchemaListDiff_combine X YZ))
  ∧ SchemaListDiff_combine X Y = SchemaListDiff_combine Y X
  ∧ ∃ XY, SchemaListDiff_combine X Y = Some XY
      ∧ Added XY = int_add (Added X) (Added Y)
      ∧ Deleted XY = int_add (Deleted X) (Deleted Y)
      ∧ Modified XY = Modified X ∪ Modified Y
      ∧ ∀ k, Modified XY !! k =
             match Modified X !! k, Modified Y !! k with
             | Some d, None => Some d
             | None, Some d => Some d
             | _, _ => None
             end.
Proof.
  intros HXY HYZ HXZ. unfold SchemaListDiff_combine, ModifiedSchemas_combine. simpl.
  split; [|split].
  - f_equal. apply SchemaListDiff_eq; simpl.
    + apply int_add_assoc.
    + apply int_add_assoc.
    + by rewrite (assoc_L (∪)).
  - f_equal. apply SchemaListDiff_eq; simpl.
    + apply int_add_comm.
    + apply int_add_comm.
    + by apply map_union_comm.
  - eexists. split; [reflexivity|]. simpl.
    split; [done|]. split; [done|].
    split; [by apply map_union_comm|].
    intros k. rewrite lookup_union.
    pose proof (map_disjoint_spec (Modified X) (Modified Y)) as Hd.
    destruct (Modified X !! k) as [dx|] eqn:Ex, (Modified Y !! k) as [dy|] eqn:Ey;
      simpl; try done.
    exfalso. rewrite Hd in HXY. by eapply HXY.
Qed.
End Combine.

Lemma combine_witness :
  SchemaListDiff_combine
    (mkSchemaListDiff 1 0 ({[ "#/components/schemas/Pet" := Some 7%nat ]}))
    (mkSchemaListDiff 0 2 ({[ "#2" := Some 8%nat ]}))
  = SchemaListDiff_combine
      (mkSchemaListDiff 0 2 ({[ "#2" := Some 8%nat ]}))
      (mkSchemaListDiff 1 0 ({[ "#/components/schemas/Pet" := Some 7%nat ]})).
Proof.
  apply (combine_assoc_comm_disjoint_union
           (mkSchemaListDiff 1 0 ({[ "#/components/schemas/Pet" := Some 7%nat ]}))
           (mkSchemaListDiff 0 2 ({[ "#2" := Some 8%nat ]}))
           (mkSchemaListDiff 3 3 ({[ "#/components/schemas/Owner" := Some 9%nat ]})));
    simpl; apply map_disjoint_singleton_l_2; reflexivity.
Defined.

(** ** Matching *)

Section MatchingFacts.
Context {Schema : Type} `{EqDecision Schema}.
Implicit Types (l : SchemaRefs Schema) (s : SchemaRefPtr Schema).

Lemma DeepEqual_refl s : DeepEqual s s = true.
Proof. unfold DeepEqual. by apply bool_decide_eq_true_2. Qed.

Lemma DeepEqual_ne s1 s2 : s1 ≠ s2 → DeepEqual s1 s2 = false.
Proof. unfold DeepEqual. by apply bool_decide_eq_false_2. Qed.

Lemma alreadyMatched_in i (matched : gset nat) :
  i ∈ matched → alreadyMatched i matched = true.
Proof. unfold alreadyMatched. by apply bool_decide_eq_true_2. Qed.

Lemma alreadyMatched_notin i (matched : gset nat) :
  i ∉ matched → alreadyMatched i matched = false.
Proof. unfold alreadyMatched. by apply bool_decide_eq_false_2. Qed.

(** The indices that [getGroupDifference] reports are positions of its
    first argument. *)
Lemma getGroupDifference_from_range l1 l2 : ∀ i acc matched x,
  x ∈ getGroupDifference_from i l1 l2 acc matched →
  x ∈ acc ∨ (i ≤ x < i + length l1)%nat.
Proof.
  induction l1 as [|s l1 IH]; intros i acc matched x; simpl.
  - by left.
  - destruct (findIndenticalSchema s l2 matched) as [[] index2]; simpl; intros Hx.
    + apply IH in Hx as [Hx|Hx]; [by left | right; lia].
    + apply IH in Hx as [Hx|Hx]; [|right; lia].
      apply elem_of_app in Hx as [Hx|Hx]; [by left|].
      apply list_elem_of_singleton in Hx. right; lia.
Qed.

Lemma getGroupDifference_range l1 l2 x :
  x ∈ getGroupDifference l1 l2 → (x < length l1)%nat.
Proof.
  intros Hx. apply getGroupDifference_from_range in Hx as [Hx|Hx].
  - by apply elem_of_nil in Hx.
  - lia.
Qed.

Lemma getGroupDifference_lookup l1 l2 x rest :
  getGroupDifference l1 l2 = x :: rest → ∃ s, l1 !! x = Some s.
Proof.
  intros Hx. apply lookup_lt_is_Some_2, (getGroupDifference_range l1 l2).
  rewrite Hx. apply list_elem_of_here.
Qed.

Lemma find_from_hit i s l (matched : gset nat) :
  i ∉ matched → findIndenticalSchema_from i s (s :: l) matched = (true, i).
Proof.
  intros Hi. cbn [findIndenticalSchema_from].
  by rewrite alreadyMatched_notin, DeepEqual_refl.
Qed.

Lemma find_from_taken i s s' l (matched : gset nat) :
  i ∈ matched →
  findIndenticalSchema_from i s (s' :: l) matched
  = findIndenticalSchema_from (S i) s l matched.
Proof. intros Hi. cbn [findIndenticalSchema_from]. by rewrite alreadyMatched_in. Qed.

Lemma find_from_differs i s s' l (matched : gset nat) :
  s ≠ s' →
  findIndenticalSchema_from i s (s' :: l) matched
  = findIndenticalSchema_from (S i) s l matched.
Proof.
  intros Hs. cbn [findIndenticalSchema_from].
  rewrite DeepEqual_ne by done. by destruct (alreadyMatched i matched).
Qed.

Lemma find_from_nil i s (matched : gset nat) :
  findIndenticalSchema_from i s [] matched = (false, 0%nat).
Proof. reflexivity. Qed.

(** One step of the search, whichever branch applies. *)
Ltac find_step :=
  first [ rewrite find_from_taken by set_solver
        | rewrite find_from_hit by set_solver
        | rewrite find_from_differs by congruence
        | rewrite find_from_nil ].

Ltac run_matching :=
  unfold getGroupDifference;
  repeat (cbn [getGroupDifference_from negb]; unfold findIndenticalSchema;
          repeat find_step).

(** Two lists that agree on their first element and differ on their
    second: the second position is the one left unmatched. *)
Lemma getGroupDifference_pair s1 s2 s3 :
  s2 ≠ s3 → getGroupDifference [s1; s2] [s1; s3] = [1%nat].
Proof. intros Hne. by run_matching. Qed.

Lemma getGroupDifference_pair_triple s1 s2 s3 s4 :
  s2 ≠ s3 → s2 ≠ s4 → getGroupDifference [s1; s2] [s1; s3; s4] = [1%nat].
Proof. intros H3 H4. by run_matching. Qed.

Lemma getGroupDifference_triple_pair s1 s2 s3 s4 :
  s2 ≠ s3 → s2 ≠ s4 → getGroupDifference [s1; s3; s4] [s1; s2] = [1%nat; 2%nat].
Proof. intros H3 H4. by run_matching. Qed.
End MatchingFacts.

(** ** The schema-list diff *)

Section SchemaListsDiffFacts.
Context {Schema : Type} `{EqDecision Schema}.
Context {SchemaDiff Config state error : Type}.
Variable SchemaDiff_Empty : option SchemaDiff → bool.
Variable getSchemaDiff :
  Config → SchemaRefPtr Schema → SchemaRefPtr Schema
  → M (state := state) (error := error) (option SchemaDiff).
Implicit Types (l : SchemaRefs Schema) (s : SchemaRefPtr Schema) (st : state).

Local Abbreviation inlineDiff := (getSchemaListsInlineDiff SchemaDiff_Empty getSchemaDiff).
Local Abbreviation refsDiff := (getSchemaListsRefsDiff SchemaDiff_Empty getSchemaDiff).
Local Abbreviation internalDiff := (getSchemaListsDiffInternal SchemaDiff_Empty getSchemaDiff).
Local Abbreviation listsDiff := (getSchemaListsDiff SchemaDiff_Empty getSchemaDiff).

(** When one element is left on each side, the inline diff is decided
    by the recursive diff of the two. *)
Lemma inlineDiff_single_pair config l1 l2 st a0 d0 s1 s2 :
  getGroupDifference l2 l1 = [a0] →
  getGroupDifference l1 l2 = [d0] →
  l1 !! d0 = Some s1 →
  l2 !! a0 = Some s2 →
  inlineDiff config l1 l2 st =
    match getSchemaDiff config s1 s2 st with
    | (Ok d, st') =>
        (Ok (if SchemaDiff_Empty d then SchemaListDiff_zero
             else {| Added := 0; Deleted := 0;
                     Modified := {[ Sprintf_hash_d (int_add 1 (Z.of_nat d0)) := d ]} |}),
         st')
    | (Err e, st') => (Err e, st')
    | (Panic msg, st') => (Panic msg, st')
    end.
Proof.
  intros Ha Hd H1 H2. unfold getSchemaListsInlineDiff.
  rewrite Ha, Hd. change ((len [a0] =? 1) && (len [d0] =? 1)) with true.
  unfold mbind, M_bind, index, mret, M_ret. cbn [lookup list_lookup].
  rewrite H1, H2.
  destruct (getSchemaDiff config s1 s2 st) as [[d|e|msg] st']; [|done..].
  by destruct (SchemaDiff_Empty d).
Qed.

(** Otherwise the two groups are only counted. *)
Lemma inlineDiff_counts config l1 l2 st :
  ¬ (length (getGroupDifference l2 l1) = 1%nat ∧ length (getGroupDifference l1 l2) = 1%nat) →
  inlineDiff config l1 l2 st =
    (Ok {| Added := len (getGroupDifference l2 l1);
           Deleted := len (getGroupDifference l1 l2);
           Modified := ∅ |}, st).
Proof.
  intros Hn. unfold getSchemaListsInlineDiff, len.
  destruct (_ && _) eqn:E; [|done].
  apply andb_true_iff in E as [E1 E2]. exfalso. apply Hn. lia.
Qed.

Lemma toSchemaRefsMap_loop_inline l (result : SchemaRefMap Schema) :
  all_inline l → toSchemaRefsMap_loop (error := error) l result = Ok result.
Proof.
  induction 1 as [|s l Hs _ IH]; simpl; [done|]. by rewrite Hs.
Qed.

(** On inline schemas the comparison by reference name finds nothing. *)
Lemma refsDiff_inline config l1 l2 st :
  all_inline l1 → all_inline l2 →
  refsDiff config l1 l2 st = (Ok SchemaListDiff_zero, st).
Proof.
  intros H1 H2. unfold getSchemaListsRefsDiff, toSchemaRefsMap, mbind, M_bind, lift.
  rewrite !toSchemaRefsMap_loop_inline by done.
  unfold getSchemaMapsRefsDiff, getSchemaMapsRefsDiff_loop2, mbind, M_bind.
  by rewrite map_to_list_empty, map_fold_empty.
Qed.

Lemma internalDiff_inline config l1 l2 st :
  all_inline l1 → all_inline l2 →
  internalDiff config l1 l2 st =
    match inlineDiff config l1 l2 st with
    | (Ok d, st') => (Ok (SchemaListDiff_combine SchemaListDiff_zero d), st')
    | (Err e, st') => (Err e, st')
    | (Panic msg, st') => (Panic msg, st')
    end.
Proof.
  intros H1 H2. unfold getSchemaListsDiffInternal.
  rewrite !filterSchemaRefs_returns_its_argument.
  unfold mbind at 1, M_bind at 1. rewrite refsDiff_inline by done.
  unfold mbind, M_bind.
  by destruct (inlineDiff config l1 l2 st) as [[d|e|msg] st'].
Qed.

Ltac solve_inline :=
  unfold all_inline in *; rewrite ?Forall_cons, ?Forall_nil in *; intuition.

Lemma internalDiff_is_pointer config l1 l2 st diff st' :
  internalDiff config l1 l2 st = (Ok diff, st') → ∃ x, diff = Some x.
Proof.
  unfold getSchemaListsDiffInternal, mbind, M_bind, mret, M_ret. intros Hi.
  destruct (refsDiff _ _ _ st) as [[a|e|msg] st1]; [|done..].
  destruct (inlineDiff _ _ _ st1) as [[b|e|msg] st2]; [|done..].
  inversion Hi. unfold SchemaListDiff_combine. eauto.
Qed.

Lemma SchemaListDiff_Empty_spec (x : SchemaListDiff SchemaDiff) :
  SchemaListDiff_Empty (Some x) = true
  ↔ Added x = 0 ∧ Deleted x = 0 ∧ Modified x = ∅.
Proof.
  unfold SchemaListDiff_Empty.
  rewrite !andb_true_iff, !Z.eqb_eq, <- map_size_empty_iff. intuition lia.
Qed.

(** C1 (as the code has it): when exactly one element is left unmatched
    on each side and the recursive diff of the two is empty, the inline
    schema-list diff is the zero SchemaListDiff: nothing added, nothing
    deleted and no modified entry.  The two indices are positions of the
    lists, so the two elements exist. *)
Theorem inline_pair_with_empty_diff_is_dropped config l1 l2 st a0 d0 :
  getGroupDifference l2 l1 = [a0] →
  getGroupDifference l1 l2 = [d0] →
  ∃ s1 s2, l1 !! d0 = Some s1 ∧ l2 !! a0 = Some s2 ∧
    ∀ d st', getSchemaDiff config s1 s2 st = (Ok d, st') →
             SchemaDiff_Empty d = true →
             inlineDiff config l1 l2 st
             = (Ok {| Added := 0; Deleted := 0; Modified := ∅ |}, st').
Proof.
  intros Ha Hd.
  destruct (getGroupDifference_lookup _ _ _ _ Ha) as [s2 H2].
  destruct (getGroupDifference_lookup _ _ _ _ Hd) as [s1 H1].
  exists s1, s2. split; [done|]. split; [done|]. intros d st' Hdiff He.
  rewrite (inlineDiff_single_pair config l1 l2 st a0 d0 s1 s2) by done.
  by rewrite Hdiff, He.
Qed.

(** C3 (as the code has it): for A=[S1,S2] and B=[S1,S3] with S2 and S3
    structurally different, when the recursive diff of S2 and S3 is not
    empty the inline diff has added=0, deleted=0 and exactly one modified
    entry, under the key "#2" (one plus the index of S2 in A), mapped to
    that diff; when the three schemas are inline, this is also the
    result of the whole schema-list diff. *)
Theorem inline_pair_reported_under_position_key config s1 s2 s3 st d st' :
  s2 ≠ s3 →
  getSchemaDiff config s2 s3 st = (Ok d, st') →
  SchemaDiff_Empty d = false →
  inlineDiff config [s1; s2] [s1; s3] st
    = (Ok {| Added := 0; Deleted := 0; Modified := {[ "#2" := d ]} |}, st')
  ∧ (all_inline [s1; s2; s3] →
     listsDiff config [s1; s2] [s1; s3] st
       = (Ok (Some {| Added := 0; Deleted := 0; Modified := {[ "#2" := d ]} |}), st')).
Proof.
  intros Hne Hdiff He.
  assert (inlineDiff config [s1; s2] [s1; s3] st
    = (Ok {| Added := 0; Deleted := 0; Modified := {[ "#2" := d ]} |}, st')) as Hin.
  { rewrite (inlineDiff_single_pair config _ _ st 1 1 s2 s3);
      [| by apply getGroupDifference_pair | by apply getGroupDifference_pair | done..].
    by rewrite Hdiff, He. }
  split; [done|]. intros Hall.
  unfold getSchemaListsDiff, mbind, M_bind.
  rewrite internalDiff_inline, Hin.
  - unfold SchemaListDiff_combine, ModifiedSchemas_combine, SchemaListDiff_zero.
    cbn [Added Deleted Modified]. rewrite (right_id_L ∅ (∪)).
    change (int_add 0 0) with 0.
    unfold SchemaListDiff_Empty. cbn [Added Deleted Modified].
    by rewrite map_size_singleton.
  - solve_inline.
  - solve_inline.
Qed.

(** The lists A=[S1,S2] and B=[S1,S3,S4]: two schemas of B and one of A
    stay unmatched. *)
Lemma inline_lists_pair_triple config s1 s2 s3 s4 st :
  s2 ≠ s3 → s2 ≠ s4 →
  inlineDiff config [s1; s2] [s1; s3; s4] st
    = (Ok {| Added := 2; Deleted := 1; Modified := ∅ |}, st)
  ∧ (all_inline [s1; s2; s3; s4] →
     listsDiff config [s1; s2] [s1; s3; s4] st
       = (Ok (Some {| Added := 2; Deleted := 1; Modified := ∅ |}), st)).
Proof.
  intros H3 H4.
  assert (inlineDiff config [s1; s2] [s1; s3; s4] st
    = (Ok {| Added := 2; Deleted := 1; Modified := ∅ |}, st)) as Hin.
  { rewrite inlineDiff_counts.
    - by rewrite getGroupDifference_pair_triple, getGroupDifference_triple_pair.
    - rewrite getGroupDifference_triple_pair by done. simpl. lia. }
  split; [done|].
  intros Hall. unfold getSchemaListsDiff, mbind, M_bind.
  rewrite internalDiff_inline, Hin.
  - unfold SchemaListDiff_combine, ModifiedSchemas_combine, SchemaListDiff_zero.
    cbn [Added Deleted Modified]. rewrite (right_id_L ∅ (∪)).
    change (int_add 0 2) with 2. change (int_add 0 1) with 1.
    reflexivity.
  - solve_inline.
  - solve_inline.
Qed.

(** C10: Empty on the nil pointer is true; when the internal diff
    succeeds, getSchemaListsDiff succeeds in the same state and returns
    nil exactly when that diff is empty, that is when Added=0, Deleted=0
    and Modified has no entry, and returns the diff itself otherwise; an
    error of the internal diff is returned as it is. *)
Theorem getSchemaListsDiff_nil_iff_empty config l1 l2 st :
  SchemaListDiff_Empty (SchemaDiff := SchemaDiff) None = true
  ∧ (∀ diff st',
       internalDiff config l1 l2 st = (Ok diff, st') →
       ∃ r x, listsDiff config l1 l2 st = (Ok r, st')
         ∧ diff = Some x
         ∧ (r = None ↔ SchemaListDiff_Empty diff = true)
         ∧ (r = None ↔ Added x = 0 ∧ Deleted x = 0 ∧ Modified x = ∅)
         ∧ (r ≠ None → r = diff)
         ∧ SchemaListDiff_Empty r = SchemaListDiff_Empty diff)
  ∧ (∀ e st',
       internalDiff config l1 l2 st = (Err e, st') →
       listsDiff config l1 l2 st = (Err e, st')).
Proof.
  split; [done|]. split.
  - intros diff st' Hi.
    destruct (internalDiff_is_pointer _ _ _ _ _ _ Hi) as [x ->].
    unfold getSchemaListsDiff, mbind, M_bind. rewrite Hi.
    destruct (SchemaListDiff_Empty (Some x)) eqn:E.
    + exists None, x. rewrite <- SchemaListDiff_Empty_spec, E. by intuition.
    + exists (Some x), x. rewrite <- SchemaListDiff_Empty_spec, E. by intuition.
  - intros e st' Hi. unfold getSchemaListsDiff, mbind, M_bind. by rewrite Hi.
Qed.
End SchemaListsDiffFacts.

(** ** The schema-list diff on concrete lists *)

Lemma inline_pair_with_empty_diff_is_dropped_witness :
  getSchemaListsInlineDiff small_SchemaDiff_Empty small_getSchemaDiff tt
    [schema_one; schema_two] [schema_one; schema_two_retitled] []
  = (Ok {| Added := 0; Deleted := 0; Modified := ∅ |}, []).
Proof.
  destruct (inline_pair_with_empty_diff_is_dropped
              small_SchemaDiff_Empty small_getSchemaDiff tt
              [schema_one; schema_two] [schema_one; schema_two_retitled] [] 1 1)
    as (s1 & s2 & H1 & H2 & Hdrop); [vm_compute; reflexivity..|].
  injection H1 as <-. injection H2 as <-.
  apply (Hdrop (Some (mkSmallSchemaDiff None None)) []); reflexivity.
Defined.

(** C1 as stated fails: [schema_two] and [schema_two_retitled] are the one
    unmatched element of each side, they are not deeply equal, their
    recursive diff is empty, and the inline diff has no modified entry. *)
Lemma inline_pair_with_empty_diff_not_reported :
  let A := [schema_one; schema_two] in
  let B := [schema_one; schema_two_retitled] in
  getGroupDifference A B = [1%nat]
  ∧ getGroupDifference B A = [1%nat]
  ∧ DeepEqual schema_two schema_two_retitled = false
  ∧ (∃ d, small_getSchemaDiff tt schema_two schema_two_retitled [] = (Ok d, [])
          ∧ small_SchemaDiff_Empty d = true)
  ∧ ∃ r, getSchemaListsInlineDiff small_SchemaDiff_Empty small_getSchemaDiff tt A B []
         = (Ok r, [])
       ∧ ¬ ∃ k d, Modified r !! k = Some d.
Proof.
  cbv zeta. repeat split; try (vm_compute; reflexivity).
  - eexists. split; vm_compute; reflexivity.
  - exists (mkSchemaListDiff 0 0 ∅). split; [vm_compute; reflexivity|].
    intros (k & d & Hk). simpl in Hk. by rewrite lookup_empty in Hk.
Qed.

Lemma inline_pair_reported_under_position_key_witness :
  getSchemaListsDiff small_SchemaDiff_Empty small_getSchemaDiff tt
    [schema_one; schema_two] [schema_one; schema_three] []
  = (Ok (Some {| Added := 0; Deleted := 0;
                 Modified := {[ "#2" := Some (mkSmallSchemaDiff
                                                (Some ("string", "integer"))
                                                (Some ("byte", "int32"))) ]} |}), []).
Proof.
  apply (inline_pair_reported_under_position_key
           small_SchemaDiff_Empty small_getSchemaDiff tt
           schema_one schema_two schema_three []).
  - discriminate.
  - reflexivity.
  - reflexivity.
  - repeat constructor.
Defined.

(** C3 as stated fails: the one modified entry is under "#2", and there is
    no entry under "#1". *)
Lemma inline_pair_key_is_not_hash_1 :
  ∃ r, getSchemaListsDiff small_SchemaDiff_Empty small_getSchemaDiff tt
         [schema_one; schema_two] [schema_one; schema_three] []
       = (Ok (Some r), [])
     ∧ DeepEqual schema_two schema_three = false
     ∧ Added r = 0 ∧ Deleted r = 0
     ∧ Modified r !! "#1" = None
     ∧ Modified r !! "#2"
       = Some (Some (mkSmallSchemaDiff (Some ("string", "integer"))
                                       (Some ("byte", "int32")))).
Proof.
  eexists. split; [vm_compute; reflexivity|].
  repeat split; vm_compute; reflexivity.
Qed.

Lemma getSchemaListsDiff_nil_iff_empty_witness :
  getSchemaListsDiff small_SchemaDiff_Empty small_getSchemaDiff tt
    [schema_Pet; schema_one] [schema_one; schema_Pet] []
  = (Ok None, []).
Proof.
  destruct (getSchemaListsDiff_nil_iff_empty
              small_SchemaDiff_Empty small_getSchemaDiff tt
              [schema_Pet; schema_one] [schema_one; schema_Pet] [])
    as (_ & Hok & _).
  destruct (Hok (Some (mkSchemaListDiff 0 0 ∅)) [])
    as (r & x & Hr & Hx & Hnil & _); [vm_compute; reflexivity|].
  rewrite Hr. f_equal. f_equal. apply Hnil. reflexivity.
Defined.

(** C2 fails on the code: with a referenced and an inline schema in the
    list, the filter for inline schemas returns the referenced one too and
    the filter for referenced schemas returns the inline one too. *)
Theorem filterSchemaRefs_keeps_rejected_elements :
  filterSchemaRefs [schema_Pet; schema_one] isSchemaInline = [schema_Pet; schema_one]
  ∧ isSchemaInline schema_Pet = false
  ∧ filterSchemaRefs [schema_Pet; schema_one] isSchemaRef = [schema_Pet; schema_one]
  ∧ isSchemaRef schema_one = false.
Proof. repeat split. Qed.

(** What follows from it: two differently named references are counted as
    one deletion and one addition by the comparison by name, and the
    matching of inline schemas pairs them once more, as a modified
    entry. *)
Example referenced_schemas_enter_the_inline_matching :
  ∃ r, getSchemaListsDiff small_SchemaDiff_Empty small_getSchemaDiff tt
         [schema_Pet] [schema_Owner] []
       = (Ok (Some r), [])
     ∧ Added r = 1 ∧ Deleted r = 1
     ∧ Modified r !! "#1" = Some (Some (mkSmallSchemaDiff (Some ("object", "string")) None)).
Proof.
  eexists. split; [vm_compute; reflexivity|].
  repeat split; vm_compute; reflexivity.
Qed.

(** A nil element reaches the map of references and panics there. *)
Example nil_element_panics :
  getSchemaListsDiff small_SchemaDiff_Empty small_getSchemaDiff tt
    [schema_one; None] [schema_one] []
  = (Panic "nil pointer dereference", []).
Proof. reflexivity. Qed.

(** ** The method diff *)

Section MethodDiffFacts.
Context `{SubDiffs}.

Lemma is_nil_true {A} (p : option A) : is_nil p = true ↔ p = None.
Proof. by destruct p. Qed.

(** A field that is stored only when its sub-diff is not empty is nil
    exactly when the sub-diff is empty. *)
Lemma is_nil_unless_empty {A} (empty : option A → bool) (diff : option A) :
  empty None = true →
  is_nil (unless_empty empty diff) = true ↔ empty diff = true.
Proof.
  intros Hnil. unfold unless_empty. destruct (empty diff) eqn:E; simpl; [done|].
  rewrite is_nil_true. split; [|done]. intros ->. congruence.
Qed.

(** A leaf diff is nil exactly when it is empty. *)
Lemma is_nil_leaf {A} (empty : option A → bool) (diff : option A) :
  empty None = true → (empty diff = true → diff = None) →
  is_nil diff = true ↔ empty diff = true.
Proof.
  intros Hnil Hleaf. rewrite is_nil_true. split; [by intros ->|done].
Qed.


(** X22: provided that every emptiness check of a sub-diff accepts nil,
    and that getStringsDiff and getValueDiff return nil whenever their
    result is empty, the result of getMethodDiff is empty exactly when
    the ten sub-diffs of the two operations are all empty.  The two
    provisos are about functions of the package that are outside the
    files at hand. *)
Theorem getMethodDiff_empty_iff_sub_diffs_empty pathItem1 pathItem2 :
  nil_is_empty → leaf_diffs_nil_when_empty →
  MethodDiff_empty (getMethodDiff pathItem1 pathItem2) = true
  ↔ sub_diffs_empty pathItem1 pathItem2 = true.
Proof.
  intros (Hs & Hv & Hp & Hb & Hr & Hc & Hsv) (Hls & Hlv).
  unfold MethodDiff_empty, sub_diffs_empty, getMethodDiff.
  cbn [TagsDiff SummaryDiff DescriptionDiff OperationIDDiff ParametersDiff_
       RequestBodyDiff_ ResponsesDiff_ CallbacksDiff_ DeprecatedDiff ServersDiff_].
  rewrite !andb_true_iff.
  rewrite !is_nil_unless_empty by done.
  rewrite (is_nil_leaf StringsDiff_empty) by auto.
  rewrite !(is_nil_leaf ValueDiff_empty) by auto.
  reflexivity.
Qed.
End MethodDiffFacts.

Lemma SmallSubDiffs_leaf_diffs : leaf_diffs_nil_when_empty (H := SmallSubDiffs).
Proof.
  split.
  - intros strings1 strings2. cbn [getStringsDiff StringsDiff_empty SmallSubDiffs].
    unfold small_getStringsDiff.
    by destruct (NamesDiff_empty (getNamesDiff strings1 strings2)) eqn:E; [|rewrite E].
  - intros value1 value2. cbn [getValueDiff ValueDiff_empty SmallSubDiffs].
    unfold small_getGoValueDiff. by destruct (bool_decide (value1 = value2)).
Defined.

Lemma getMethodDiff_empty_iff_sub_diffs_empty_witness :
  MethodDiff_empty (getMethodDiff (H := SmallSubDiffs) operation_listPets operation_listPets)
  = true.
Proof.
  apply (getMethodDiff_empty_iff_sub_diffs_empty (H := SmallSubDiffs)).
  - repeat split.
  - apply SmallSubDiffs_leaf_diffs.
  - reflexivity.
Defined.

(** On a method diff that is not a result of getMethodDiff the zero-value
    test and the conjunction of the emptiness checks can differ: with an
    empty, non-nil parameters diff as its only sub-diff, every sub-diff
    passes its own emptiness check and empty() is false. *)
Example MethodDiff_empty_differs_from_conjunction :
  MethodDiff_empty_by_conjunction method_diff_with_empty_parameters = true
  ∧ MethodDiff_empty method_diff_with_empty_parameters = false
  ∧ ParametersDiff_ method_diff_with_empty_parameters
    = Some {| names_Added := []; names_Deleted := [] |}.
Proof. repeat split. Qed.

(** ** The diff result *)

Lemma filter_all {A} (p : A → bool) (l : list A) :
  Forall (λ x, p x = true) l → List.filter p l = l.
Proof. induction 1 as [|x l Hx _ IH]; simpl; [done|]. by rewrite Hx, IH. Qed.

Lemma filter_none {A} (p : A → bool) (l : list A) :
  Forall (λ x, p x = false) l → List.filter p l = [].
Proof. induction 1 as [|x l Hx _ IH]; simpl; [done|]. by rewrite Hx. Qed.

Section DiffResultFacts.
Context `{RegexpLib}.
Context {EndpointDiff : Type}.
Implicit Types (d : DiffResult (EndpointDiff := EndpointDiff)) (r : Regexp).

Lemma filterEndpoints_filter (endpoints : list string) r :
  filterEndpoints endpoints r = List.filter (MatchString r) endpoints.
Proof. unfold filterEndpoints. by rewrite fold_left_append_if. Qed.

(** Storing the matching entries into a new map, in whatever order the
    map is ranged over, is filtering the map by key. *)
Lemma filterModifiedEndpoints_filter (modifiedEndpoints : gmap string EndpointDiff) r :
  filterModifiedEndpoints modifiedEndpoints r
  = filter (λ kv, MatchString r kv.1 = true) modifiedEndpoints.
Proof.
  unfold filterModifiedEndpoints.
  apply (map_fold_weak_ind
           (λ result m, result = filter (λ kv, MatchString r kv.1 = true) m)).
  - by rewrite map_filter_empty.
  - intros endpoint endpointDiff m result Hfresh ->.
    destruct (MatchString r endpoint) eqn:E.
    + by rewrite map_filter_insert_True.
    + rewrite map_filter_insert_not'; [done| |]; simpl; congruence.
Qed.

(** C6: when the pattern does not compile, the three containers are
    left as they are; the failure is logged and nothing else happens. *)
Theorem FilterByRegex_invalid_pattern_is_noop d (filter : string) err :
  regexp_Compile filter = inr err →
  FilterByRegex d filter = (d, [FailedToCompile filter err])
  ∧ AddedEndpoints (FilterByRegex d filter).1 = AddedEndpoints d
  ∧ DeletedEndpoints (FilterByRegex d filter).1 = DeletedEndpoints d
  ∧ ModifiedEndpoints (FilterByRegex d filter).1 = ModifiedEndpoints d.
Proof. intros Hc. unfold FilterByRegex. by rewrite Hc. Qed.

(** C7: when the pattern compiles, the added and the deleted endpoints
    are filtered by the match, in their order, and the modified
    endpoints are the entries whose key matches; a pattern that matches
    every endpoint of the result leaves it as it is, and a pattern that
    matches none of them empties the three containers. *)
Theorem FilterByRegex_keeps_matching d (filter : string) r :
  regexp_Compile filter = inl r →
  let d' := (FilterByRegex d filter).1 in
  AddedEndpoints d' = List.filter (MatchString r) (AddedEndpoints d)
  ∧ DeletedEndpoints d' = List.filter (MatchString r) (DeletedEndpoints d)
  ∧ (∀ endpoint endpointDiff,
       ModifiedEndpoints d' !! endpoint = Some endpointDiff
       ↔ ModifiedEndpoints d !! endpoint = Some endpointDiff
         ∧ MatchString r endpoint = true)
  ∧ (on_endpoints (λ endpoint, MatchString r endpoint = true) d → d' = d)
  ∧ (on_endpoints (λ endpoint, MatchString r endpoint = false) d →
     d' = newDiffResult).
Proof.
  intros Hc. unfold FilterByRegex. rewrite Hc. cbn [fst].
  cbn [AddedEndpoints DeletedEndpoints ModifiedEndpoints].
  rewrite !filterEndpoints_filter, filterModifiedEndpoints_filter.
  split; [done|]. split; [done|]. split; [|split].
  - intros endpoint endpointDiff. by rewrite map_lookup_filter_Some.
  - intros (Ha & Hd & Hm). destruct d as [added deleted modified]; simpl in *.
    rewrite !filter_all by done. f_equal.
    apply map_filter_id. intros endpoint x Hx. by apply (Hm endpoint x).
  - intros (Ha & Hd & Hm). unfold newDiffResult.
    rewrite !filter_none by done. f_equal.
    apply map_empty_filter_2. intros endpoint x Hx. simpl.
    rewrite (Hm endpoint x Hx). done.
Qed.

Lemma run_calls_from (calls : list EndpointCall) d :
  AddedEndpoints (fold_left run_call calls d) = AddedEndpoints d ++ added_of calls
  ∧ DeletedEndpoints (fold_left run_call calls d)
    = DeletedEndpoints d ++ deleted_of calls
  ∧ ModifiedEndpoints (fold_left run_call calls d) = ModifiedEndpoints d.
Proof.
  revert d. induction calls as [|c calls IH]; intros d; simpl.
  - by rewrite !app_nil_r.
  - destruct (IH (run_call d c)) as (-> & -> & ->).
    destruct c; simpl; by rewrite <- ?app_assoc.
Qed.

(** The adders append: the added and the deleted endpoints of a result
    are the endpoints it was given, in the order of the calls. *)
Lemma endpoints_are_kept_in_call_order (calls : list EndpointCall) :
  AddedEndpoints (run_calls (EndpointDiff := EndpointDiff) calls) = added_of calls
  ∧ DeletedEndpoints (run_calls (EndpointDiff := EndpointDiff) calls) = deleted_of calls.
Proof.
  unfold run_calls.
  destruct (run_calls_from calls newDiffResult) as (-> & -> & _). by simpl.
Qed.
End DiffResultFacts.

Lemma FilterByRegex_invalid_pattern_is_noop_witness :
  FilterByRegex (H := SmallRegexpLib) result_pets "/pets("
  = (result_pets,
     [FailedToCompile (H := SmallRegexpLib) "/pets(" "error parsing regexp"%string]).
Proof.
  apply (FilterByRegex_invalid_pattern_is_noop (H := SmallRegexpLib)). reflexivity.
Defined.

Lemma FilterByRegex_keeps_matching_witness :
  (FilterByRegex (H := SmallRegexpLib) result_pets ".*").1 = result_pets.
Proof.
  apply (FilterByRegex_keeps_matching (H := SmallRegexpLib) result_pets ".*" MatchAll).
  - reflexivity.
  - unfold on_endpoints. split; [|split].
    + by repeat constructor.
    + by repeat constructor.
    + by intros endpoint x _.
Defined.

Example FilterByRegex_pets :
  let d' := (FilterByRegex (H := SmallRegexpLib) result_pets "/pets").1 in
  AddedEndpoints d' = ["GET /pets"%string]
  ∧ DeletedEndpoints d' = []
  ∧ ModifiedEndpoints d' = {[ "GET /pets/{id}"%string := 1%nat ]}.
Proof. repeat split; vm_compute; reflexivity. Qed.

(** The adders themselves do not sort: two endpoints added in this order
    are kept in this order.  The order of a result is the order of its
    caller's calls. *)
Example adders_do_not_sort :
  let d := addAddedEndpoint (addAddedEndpoint (newDiffResult (EndpointDiff := nat))
                                              "GET /pets") "DELETE /pets" in
  AddedEndpoints d = ["GET /pets"; "DELETE /pets"]%string
  ∧ sorted_strings (AddedEndpoints d) = false.
Proof. by split. Qed.

(** * Further properties *)

(** ** The search for an identical schema *)

Section SearchFacts.
Context {Schema : Type} `{EqDecision Schema}.
Implicit Types (l : SchemaRefs Schema) (s : SchemaRefPtr Schema) (matched : gset nat).

Lemma find_from_found k s l matched j :
  findIndenticalSchema_from k s l matched = (true, j) →
  (k ≤ j < k + length l)%nat ∧ (j ∉ matched) ∧ (l !! ((j - k)%nat) = Some s)
  ∧ ∀ i x, (i < j - k)%nat → l !! i = Some x → (k + i)%nat ∈ matched ∨ x ≠ s.
Proof.
  revert k. induction l as [|x l IH]; intros k; cbn [findIndenticalSchema_from].
  - discriminate.
  - unfold alreadyMatched, DeepEqual.
    destruct (bool_decide_reflect (k ∈ matched)) as [Hk|Hk].
    + intros Hf. destruct (IH _ Hf) as (Hr & Hj & Hl & Hfirst).
      split; [simpl; lia|]. split; [done|]. split.
      * replace (j - k)%nat with (S (j - S k)) by lia. done.
      * intros [|i] y Hi Hy; simpl in Hy.
        -- left. by rewrite Nat.add_0_r.
        -- destruct (Hfirst i y) as [Hm|Hne]; [lia|done| |by right].
           left. by replace (k + S i)%nat with (S k + i)%nat by lia.
    + destruct (bool_decide_reflect (s = x)) as [->|Hsx].
      * intros [= <-]. split; [simpl; lia|]. split; [done|].
        rewrite Nat.sub_diag. split; [done|]. intros i y Hi. lia.
      * intros Hf. destruct (IH _ Hf) as (Hr & Hj & Hl & Hfirst).
        split; [simpl; lia|]. split; [done|]. split.
        -- replace (j - k)%nat with (S (j - S k)) by lia. done.
        -- intros [|i] y Hi Hy; simpl in Hy.
           ++ right. congruence.
           ++ destruct (Hfirst i y) as [Hm|Hne]; [lia|done| |by right].
              left. by replace (k + S i)%nat with (S k + i)%nat by lia.
Qed.

Lemma find_from_not_found k s l matched j :
  findIndenticalSchema_from k s l matched = (false, j) →
  j = 0%nat ∧ ∀ i x, l !! i = Some x → (k + i)%nat ∈ matched ∨ x ≠ s.
Proof.
  revert k. induction l as [|x l IH]; intros k; cbn [findIndenticalSchema_from].
  - intros [= <-]. split; [done|]. intros i y Hy. by rewrite lookup_nil in Hy.
  - unfold alreadyMatched, DeepEqual.
    destruct (bool_decide_reflect (k ∈ matched)) as [Hk|Hk];
      [|destruct (bool_decide_reflect (s = x)) as [->|Hsx]; [done|]].
    + intros Hf. destruct (IH _ Hf) as (-> & Hall). split; [done|].
      intros [|i] y Hy; simpl in Hy.
      * left. by rewrite Nat.add_0_r.
      * destruct (Hall i y Hy) as [Hm|Hne]; [|by right].
        left. by replace (k + S i)%nat with (S k + i)%nat by lia.
    + intros Hf. destruct (IH _ Hf) as (-> & Hall). split; [done|].
      intros [|i] y Hy; simpl in Hy.
      * right. congruence.
      * destruct (Hall i y Hy) as [Hm|Hne]; [|by right].
        left. by replace (k + S i)%nat with (S k + i)%nat by lia.
Qed.

(** X1: a successful search returns the first position of the list that is
    not yet matched and holds a schema deeply equal to the one searched
    for; a failed search returns index 0 and then no unmatched position
    holds such a schema. *)
Theorem findIndenticalSchema_first_unmatched_equal s l matched :
  match findIndenticalSchema s l matched with
  | (true, j) =>
      (j < length l)%nat ∧ (j ∉ matched) ∧ (l !! j = Some s)
      ∧ ∀ i, (i < j)%nat → i ∈ matched ∨ l !! i ≠ Some s
  | (false, j) =>
      j = 0%nat ∧ ∀ i, i ∉ matched → l !! i ≠ Some s
  end.
Proof.
  unfold findIndenticalSchema.
  destruct (findIndenticalSchema_from 0 s l matched) as [[] j] eqn:Hf.
  - destruct (find_from_found _ _ _ _ _ Hf) as (Hr & Hj & Hl & Hfirst).
    rewrite Nat.sub_0_r in Hl, Hfirst.
    split; [lia|]. split; [done|]. split; [done|]. intros i Hi.
    destruct (l !! i) as [x|] eqn:Hx; [|by right].
    destruct (Hfirst i x Hi Hx) as [Hm|Hne]; [by left|right; congruence].
  - destruct (find_from_not_found _ _ _ _ _ Hf) as (-> & Hall).
    split; [done|]. intros i Hi Hl. destruct (Hall i s Hl) as [Hm|Hne]; done.
Qed.
End SearchFacts.

(** ** What the matching reports *)

Section GroupDifferenceFacts.
Context {Schema : Type} `{EqDecision Schema}.
Implicit Types (l : SchemaRefs Schema) (s : SchemaRefPtr Schema) (matched : gset nat).

Lemma unmatched_from_agree k l matched matched' :
  (∀ i, (k ≤ i)%nat → i ∈ matched ↔ i ∈ matched') →
  unmatched_from k l matched = unmatched_from k l matched'.
Proof.
  revert k. induction l as [|x l IH]; intros k Hag; simpl; [done|].
  unfold alreadyMatched.
  rewrite (bool_decide_ext (k ∈ matched) (k ∈ matched')) by (apply Hag; lia).
  rewrite (IH (S k)) by (intros i Hi; apply Hag; lia). done.
Qed.

(** A schema that is still available is found, and is then no longer
    available. *)
Lemma find_from_available k s l matched :
  s ∈ unmatched_from k l matched →
  ∃ j, findIndenticalSchema_from k s l matched = (true, j) ∧ (k ≤ j)%nat
     ∧ unmatched_from k l matched ≡ₚ s :: unmatched_from k l ({[j]} ∪ matched).
Proof.
  revert k. induction l as [|x l IH]; intros k; simpl.
  - intros Hs. by apply elem_of_nil in Hs.
  - destruct (decide (k ∈ matched)) as [Hk|Hk].
    + rewrite !(alreadyMatched_in k matched) by done.
      intros Hs. destruct (IH _ Hs) as (j & Hf & Hj & Hp).
      exists j. split; [done|]. split; [lia|].
      by rewrite (alreadyMatched_in k ({[j]} ∪ matched)) by set_solver.
    + rewrite !(alreadyMatched_notin k matched) by done.
      unfold DeepEqual. destruct (bool_decide_reflect (s = x)) as [->|Hsx].
      * intros _. exists k. split; [done|]. split; [done|].
        rewrite (alreadyMatched_in k ({[k]} ∪ matched)) by set_solver.
        rewrite (unmatched_from_agree (S k) l ({[k]} ∪ matched) matched); [done|].
        intros i Hi. rewrite elem_of_union, elem_of_singleton.
        split; [intros [->|?]; [lia|done] | by right].
      * intros Hs. apply elem_of_cons in Hs as [Hs|Hs]; [done|].
        destruct (IH _ Hs) as (j & Hf & Hj & Hp).
        exists j. split; [done|]. split; [lia|].
        rewrite (alreadyMatched_notin k ({[j]} ∪ matched))
          by (rewrite elem_of_union, elem_of_singleton; intros [?|?]; [lia|done]).
        rewrite Hp. apply Permutation_swap.
Qed.

(** A schema that is not available is not found. *)
Lemma find_from_unavailable k s l matched :
  s ∉ unmatched_from k l matched →
  findIndenticalSchema_from k s l matched = (false, 0%nat).
Proof.
  revert k. induction l as [|x l IH]; intros k; simpl; [done|].
  destruct (decide (k ∈ matched)) as [Hk|Hk].
  - rewrite !(alreadyMatched_in k matched) by done. by apply IH.
  - rewrite !(alreadyMatched_notin k matched) by done.
    rewrite not_elem_of_cons. intros [Hsx Hs].
    rewrite DeepEqual_ne by done. by apply IH.
Qed.

(** The accumulator is a prefix of the result. *)
Lemma getGroupDifference_from_acc l1 l2 : ∀ i acc matched,
  getGroupDifference_from i l1 l2 acc matched
  = acc ++ getGroupDifference_from i l1 l2 [] matched.
Proof.
  induction l1 as [|s l1 IH]; intros i acc matched; simpl.
  - by rewrite app_nil_r.
  - destruct (findIndenticalSchema s l2 matched) as [[] j]; simpl; [by apply IH|].
    rewrite (IH _ (acc ++ [i])), (IH _ [i]). by rewrite <- app_assoc.
Qed.

(** The loop reports nothing exactly when what is left of the first list
    is available, with multiplicity, in the second. *)
Lemma getGroupDifference_from_nil l1 l2 : ∀ i matched,
  getGroupDifference_from i l1 l2 [] matched = []
  ↔ l1 ⊆+ unmatched_from 0 l2 matched.
Proof.
  induction l1 as [|s l1 IH]; intros i matched; simpl.
  - split; [intros _; apply submseteq_nil_l|done].
  - unfold findIndenticalSchema.
    destruct (decide (s ∈ unmatched_from 0 l2 matched)) as [Hs|Hs].
    + destruct (find_from_available _ _ _ _ Hs) as (j & -> & _ & Hp). simpl.
      rewrite IH, Hp. split.
      * apply submseteq_skip.
      * intros Hsub. by apply (submseteq_app_inv_l _ _ [s]).
    + rewrite find_from_unavailable by done. simpl.
      rewrite getGroupDifference_from_acc. split; [done|].
      intros Hsub. destruct Hs. eapply elem_of_submseteq; [|done]. by left.
Qed.

Lemma unmatched_from_empty k l : unmatched_from k l ∅ = l.
Proof.
  revert k. induction l as [|x l IH]; intros k; simpl; [done|].
  by rewrite alreadyMatched_notin, IH by set_solver.
Qed.

Lemma getGroupDifference_nil_submseteq l1 l2 :
  getGroupDifference l1 l2 = [] ↔ l1 ⊆+ l2.
Proof.
  unfold getGroupDifference.
  by rewrite getGroupDifference_from_nil, unmatched_from_empty.
Qed.

(** X2: nothing of the first list is reported exactly when the first list
    is contained in the second as a multiset: every schema occurs in the
    second list at least as often as in the first.  In particular a list
    has no difference with itself or with a reordering of itself. *)
Theorem getGroupDifference_nil_iff_submultiset l1 l2 :
  (getGroupDifference l1 l2 = [] ↔ l1 ⊆+ l2)
  ∧ getGroupDifference l1 l1 = []
  ∧ (l1 ≡ₚ l2 → getGroupDifference l1 l2 = [] ∧ getGroupDifference l2 l1 = []).
Proof.
  split; [apply getGroupDifference_nil_submseteq|].
  split; [by apply getGroupDifference_nil_submseteq|].
  intros Hp. split; apply getGroupDifference_nil_submseteq; by rewrite Hp.
Qed.

Lemma getGroupDifference_from_increasing l1 l2 : ∀ i matched,
  increasing (getGroupDifference_from i l1 l2 [] matched)
  ∧ ∀ x, x ∈ getGroupDifference_from i l1 l2 [] matched → (i ≤ x < i + length l1)%nat.
Proof.
  induction l1 as [|s l1 IH]; intros i matched; simpl.
  - split; [done|]. intros x Hx. by apply elem_of_nil in Hx.
  - destruct (findIndenticalSchema s l2 matched) as [[] j]; simpl.
    + destruct (IH (S i) ({[j]} ∪ matched)) as [Hinc Hr]. split; [done|].
      intros x Hx. apply Hr in Hx. lia.
    + rewrite getGroupDifference_from_acc.
      destruct (IH (S i) matched) as [Hinc Hr]. split.
      * simpl. destruct (getGroupDifference_from (S i) l1 l2 [] matched) as [|y r] eqn:E;
          [done|]. split; [|done].
        assert (S i ≤ y < S i + length l1)%nat by (apply Hr; left). lia.
      * intros x Hx. apply elem_of_cons in Hx as [->|Hx]; [lia|].
        apply Hr in Hx. lia.
Qed.

Lemma increasing_length_bound (l : list nat) : ∀ lo hi,
  increasing l → (∀ x, x ∈ l → (lo ≤ x < hi)%nat) → (length l ≤ hi - lo)%nat.
Proof.
  induction l as [|x l IH]; intros lo hi Hinc Hr; simpl; [lia|].
  assert (lo ≤ x < hi)%nat by (apply Hr; left).
  destruct l as [|y l]; [simpl; lia|]. destruct Hinc as [Hxy Hinc].
  specialize (IH (S x) hi Hinc). simpl in IH.
  enough (S (length l) ≤ hi - S x)%nat by (simpl; lia). apply IH.
  intros z Hz. split; [|apply Hr; by right].
  clear -Hxy Hinc Hz. revert y Hxy Hinc Hz. induction l as [|w l IHl]; intros y Hxy Hinc Hz.
  - apply list_elem_of_singleton in Hz as ->. lia.
  - apply elem_of_cons in Hz as [->|Hz]; [lia|]. destruct Hinc as [Hyw Hinc].
    apply (IHl w); [lia|done|done].
Qed.

Lemma getGroupDifference_indices_bound l1 l2 :
  increasing (getGroupDifference l1 l2)
  ∧ (length (getGroupDifference l1 l2) ≤ length l1)%nat.
Proof.
  unfold getGroupDifference.
  destruct (getGroupDifference_from_increasing l1 l2 0 ∅) as [Hinc Hr].
  split; [done|].
  pose proof (increasing_length_bound _ 0 (length l1) Hinc) as Hb.
  rewrite Nat.sub_0_r in Hb. apply Hb. intros x Hx. apply Hr in Hx. lia.
Qed.

(** X3: the reported indices are positions of the first list, in
    strictly increasing order, so no position is reported twice and at
    most as many are reported as the first list is long. *)
Theorem getGroupDifference_indices_increasing l1 l2 :
  increasing (getGroupDifference l1 l2)
  ∧ (∀ i, i ∈ getGroupDifference l1 l2 → (i < length l1)%nat)
  ∧ (length (getGroupDifference l1 l2) ≤ length l1)%nat.
Proof.
  destruct (getGroupDifference_indices_bound l1 l2) as [Hinc Hlen].
  split; [done|]. split; [|done].
  intros i Hi. by apply (getGroupDifference_range l1 l2).
Qed.
End GroupDifferenceFacts.

(** ** Disjoint lists *)

Section DisjointLists.
Context {Schema : Type} `{EqDecision Schema}.
Implicit Types (l : SchemaRefs Schema) (s : SchemaRefPtr Schema).

Lemma getGroupDifference_from_disjoint l1 l2 i :
  (∀ s, s ∈ l1 → s ∉ l2) →
  getGroupDifference_from i l1 l2 [] ∅ = seq i (length l1).
Proof.
  revert i. induction l1 as [|s l1 IH]; intros i Hd; simpl; [done|].
  unfold findIndenticalSchema. rewrite find_from_unavailable.
  - simpl. rewrite getGroupDifference_from_acc, IH; [done|].
    intros x Hx. apply Hd. by right.
  - rewrite unmatched_from_empty. apply Hd. by left.
Qed.

(** X4: when no schema of the first list occurs in the second, in
    particular when the second list is empty, every position of the first
    list is reported, in order; and nothing is reported of an empty first
    list. *)
Theorem getGroupDifference_of_disjoint_lists l1 l2 :
  ((∀ s, s ∈ l1 → s ∉ l2) → getGroupDifference l1 l2 = seq 0 (length l1))
  ∧ getGroupDifference l1 [] = seq 0 (length l1)
  ∧ getGroupDifference [] l2 = [].
Proof.
  split; [apply getGroupDifference_from_disjoint|]. split; [|done].
  apply getGroupDifference_from_disjoint. intros s _. apply not_elem_of_nil.
Qed.
End DisjointLists.

(** ** The map of referenced schemas *)

Section RefsMapFacts.
Context {Schema : Type} {error : Type}.
Implicit Types (l : SchemaRefs Schema) (result : SchemaRefMap Schema).

Lemma has_ref_inline (p : SchemaRefPtr Schema) k :
  isSchemaInline p = true → has_ref k p = false.
Proof.
  destruct p as [s|]; simpl; [|done]. intros ->. by rewrite andb_false_r.
Qed.

Lemma toSchemaRefsMap_loop_nil_panics l result :
  None ∈ l →
  toSchemaRefsMap_loop (error := error) l result = Panic "nil pointer dereference".
Proof.
  revert result. induction l as [|p l IH]; intros result Hn.
  - by apply elem_of_nil in Hn.
  - destruct p as [s|]; [|done]. apply elem_of_cons in Hn as [Hn|Hn]; [done|].
    simpl. destruct (negb _); by apply IH.
Qed.

Lemma toSchemaRefsMap_loop_lookup l : ∀ result,
  None ∉ l →
  ∃ m, toSchemaRefsMap_loop (error := error) l result = Ok m
     ∧ ∀ k, m !! k = match last (List.filter (has_ref k) l) with
                     | Some p => Some p
                     | None => result !! k
                     end.
Proof.
  induction l as [|p l IH]; intros result Hn.
  - exists result. split; [done|]. intros k. by simpl.
  - apply not_elem_of_cons in Hn as [Hp Hn]. destruct p as [s|]; [|done].
    cbn [toSchemaRefsMap_loop isSchemaInline List.filter has_ref].
    destruct (String.eqb_spec (Ref s) EmptyString) as [He|He]; cbn [negb].
    + destruct (IH result Hn) as (m & Hm & Hl). exists m. split; [done|].
      intros k. by rewrite andb_false_r.
    + destruct (IH (<[Ref s := Some s]> result) Hn) as (m & Hm & Hl).
      exists m. split; [done|]. intros k. rewrite Hl, andb_true_r.
      destruct (String.eqb_spec (Ref s) k) as [->|Hk].
      * rewrite last_cons, lookup_insert_eq.
        by destruct (last (List.filter (has_ref k) l)).
      * by rewrite lookup_insert_ne.
Qed.

(** X5: building the map of referenced schemas panics on a list with a
    nil element; on any other list it succeeds, and each reference name is
    mapped to the last schema of the list that carries it, inline schemas
    being left out. *)
Theorem toSchemaRefsMap_last_schema_of_each_name l :
  (None ∈ l → toSchemaRefsMap (error := error) l = Panic "nil pointer dereference")
  ∧ (None ∉ l →
     ∃ m, toSchemaRefsMap (error := error) l = Ok m
        ∧ (∀ k, m !! k = last (List.filter (has_ref k) l))
        ∧ (∀ k p, m !! k = Some p → p ∈ l ∧ isSchemaRef p = true)).
Proof.
  split; [apply toSchemaRefsMap_loop_nil_panics|]. intros Hn.
  destruct (toSchemaRefsMap_loop_lookup l ∅ Hn) as (m & Hm & Hl).
  assert (∀ k, m !! k = last (List.filter (has_ref k) l)) as Hl'.
  { intros k. rewrite Hl, lookup_empty. by destruct (last _). }
  exists m. split; [done|]. split; [done|]. intros k p Hp.
  rewrite Hl' in Hp. apply last_Some_elem_of, list_elem_of_In, filter_In in Hp as [Hin Hr].
  split; [by apply list_elem_of_In|].
  destruct p as [s|]; [|done]. simpl in *. by apply andb_true_iff in Hr as [_ ->].
Qed.
End RefsMapFacts.

(** ** The comparison by reference name *)

Lemma int_wrap_add_l (a b : Z) : int_wrap (int_wrap a + b) = int_wrap (a + b).
Proof.
  unfold int_wrap. f_equal.
  replace ((a + 2 ^ 63) `mod` 2 ^ 64 - 2 ^ 63 + b + 2 ^ 63)
    with ((a + 2 ^ 63) `mod` 2 ^ 64 + b) by lia.
  rewrite Zplus_mod_idemp_l. f_equal. lia.
Qed.

Lemma int_wrap_in_range (z : Z) : - 2 ^ 63 <= z < 2 ^ 63 → int_wrap z = z.
Proof. intros Hz. unfold int_wrap. rewrite Z.mod_small by lia. lia. Qed.

Lemma length_filter_map_to_list `{Countable K} {A} (P : K * A → Prop)
    `{!∀ x, Decision (P x)} (m : gmap K A) :
  length (filter P (map_to_list m)) = size (filter P m).
Proof.
  rewrite <- length_map_to_list. apply Permutation_length, NoDup_Permutation.
  - apply NoDup_filter, NoDup_map_to_list.
  - apply NoDup_map_to_list.
  - intros [k x]. rewrite list_elem_of_filter, !elem_of_map_to_list, map_lookup_filter_Some.
    tauto.
Qed.

Section RefsDiffFacts.
Context {Schema : Type} `{EqDecision Schema}.
Context {SchemaDiff Config state error : Type}.
Variable SchemaDiff_Empty : option SchemaDiff → bool.
Variable getSchemaDiff :
  Config → SchemaRefPtr Schema → SchemaRefPtr Schema
  → M (state := state) (error := error) (option SchemaDiff).
Implicit Types (m : SchemaRefMap Schema) (st : state)
  (modified : ModifiedSchemas SchemaDiff).

Local Abbreviation loop1 := (getSchemaMapsRefsDiff_loop1 SchemaDiff_Empty getSchemaDiff).
Local Abbreviation mapsDiff := (getSchemaMapsRefsDiff SchemaDiff_Empty getSchemaDiff).

(** The first loop: what it counts and what it stores. *)
Lemma loop1_spec config m2 entries : ∀ c modified st deleted' modified' st',
  NoDup entries.*1 →
  loop1 config m2 entries (int_wrap c) modified st = (Ok (deleted', modified'), st') →
  deleted' = int_wrap (c + Z.of_nat (length (filter (λ kv, m2 !! kv.1 = None) entries)))
  ∧ (∀ k, k ∉ entries.*1 → modified' !! k = modified !! k)
  ∧ (∀ k s1, (k, s1) ∈ entries →
       match m2 !! k with
       | None => modified' !! k = modified !! k
       | Some s2 =>
           ∃ st1 d st2, getSchemaDiff config s1 s2 st1 = (Ok d, st2)
             ∧ modified' !! k = if SchemaDiff_Empty d then modified !! k else Some d
       end).
Proof.
  induction entries as [|[ref schema1] entries IH];
    intros c modified st deleted' modified' st' Hnd Hrun.
  - inversion Hrun; subst. rewrite Z.add_0_r. split; [done|]. split; [done|].
    intros k s1 Hk. by apply elem_of_nil in Hk.
  - rewrite fmap_cons in Hnd. apply NoDup_cons in Hnd as [Hfresh Hnd].
    cbn [getSchemaMapsRefsDiff_loop1] in Hrun. rewrite filter_cons. cbn [fst].
    destruct (m2 !! ref) as [schema2|] eqn:Hm2.
    + unfold mbind at 1, M_bind at 1, addSchemaDiff, mbind, M_bind, mret, M_ret in Hrun.
      destruct (getSchemaDiff config schema1 schema2 st) as [[d|e|msg] st1] eqn:Hd;
        [|done..].
      destruct (IH c _ st1 deleted' modified' st' Hnd Hrun) as (Hc & Hout & Hin).
      rewrite decide_False by done.
      split; [done|]. split; [|intros k s1 Hk; apply elem_of_cons in Hk as [[= -> ->]|Hk]].
      * intros k Hk. apply not_elem_of_cons in Hk as [Hne Hk]. rewrite (Hout k Hk).
        destruct (SchemaDiff_Empty d); cbn [negb]; [done|]. by rewrite lookup_insert_ne.
      * rewrite Hm2. exists st, d, st1. split; [done|]. rewrite (Hout ref Hfresh).
        destruct (SchemaDiff_Empty d); cbn [negb]; [done|]. by rewrite lookup_insert_eq.
      * assert (k ≠ ref) as Hne.
        { intros ->. apply Hfresh. apply list_elem_of_fmap. by exists (ref, s1). }
        specialize (Hin k s1 Hk).
        destruct (m2 !! k) as [s2|]; [destruct Hin as (sa & d' & sb & Hd' & Hl);
                                      exists sa, d', sb; split; [done|]|];
          (rewrite Hin || rewrite Hl);
          destruct (SchemaDiff_Empty d); cbn [negb]; try done;
          by rewrite lookup_insert_ne.
    + unfold int_add in Hrun. rewrite int_wrap_add_l in Hrun.
      destruct (IH (c + 1) modified st deleted' modified' st' Hnd Hrun) as (Hc & Hout & Hin).
      rewrite decide_True by done. cbn [length].
      split; [rewrite Hc; f_equal; lia|].
      split; [|intros k s1 Hk; apply elem_of_cons in Hk as [[= -> ->]|Hk]].
      * intros k Hk. apply not_elem_of_cons in Hk as [Hne Hk]. by apply Hout.
      * rewrite Hm2. by apply Hout.
      * by apply Hin.
Qed.

(** The second loop counts the names of the second map that the first
    map lacks. *)
Lemma loop2_spec m1 m2 :
  getSchemaMapsRefsDiff_loop2 m1 m2
  = int_wrap (Z.of_nat (size (filter (λ kv, m1 !! kv.1 = None) m2))).
Proof.
  unfold getSchemaMapsRefsDiff_loop2.
  apply (map_fold_weak_ind
           (λ added m, added
              = int_wrap (Z.of_nat (size (filter (λ kv, m1 !! kv.1 = None) m))))).
  - by rewrite map_filter_empty, map_size_empty.
  - intros ref schema2 m added Hfresh ->.
    destruct (m1 !! ref) as [schema1|] eqn:Hm1.
    + rewrite map_filter_insert_not; [done|]. intros y. simpl. by rewrite Hm1.
    + rewrite map_filter_insert_True by done.
      rewrite map_size_insert_None by (by rewrite map_lookup_filter_None; left).
      unfold int_add. rewrite int_wrap_add_l. f_equal. lia.
Qed.

Lemma mapsDiff_spec config m1 m2 st r st' :
  mapsDiff config m1 m2 st = (Ok r, st') →
  Deleted r = int_wrap (Z.of_nat (size (filter (λ kv, m2 !! kv.1 = None) m1)))
  ∧ Added r = int_wrap (Z.of_nat (size (filter (λ kv, m1 !! kv.1 = None) m2)))
  ∧ (∀ k d, Modified r !! k = Some d →
       ∃ s1 s2 st1 st2, m1 !! k = Some s1 ∧ m2 !! k = Some s2
         ∧ getSchemaDiff config s1 s2 st1 = (Ok d, st2)
         ∧ SchemaDiff_Empty d = false)
  ∧ (∀ k s1 s2, m1 !! k = Some s1 → m2 !! k = Some s2 → Modified r !! k = None →
       ∃ st1 d st2, getSchemaDiff config s1 s2 st1 = (Ok d, st2)
         ∧ SchemaDiff_Empty d = true).
Proof.
  unfold getSchemaMapsRefsDiff, mbind, M_bind, mret, M_ret. intros Hrun.
  destruct (loop1 config m2 (map_to_list m1) 0 ∅ st) as [[[deleted modified]|e|msg] st1]
    eqn:Hloop; [|done..].
  inversion Hrun; subst; clear Hrun. cbn [Added Deleted Modified].
  change 0 with (int_wrap 0) in Hloop.
  destruct (loop1_spec _ _ _ _ _ _ _ _ _ (NoDup_fst_map_to_list m1) Hloop)
    as (Hc & Hout & Hin).
  split; [by rewrite Hc, Z.add_0_l, length_filter_map_to_list|].
  split; [apply loop2_spec|]. split.
  - intros k d Hk. destruct (m1 !! k) as [s1|] eqn:Hm1.
    + apply elem_of_map_to_list in Hm1. specialize (Hin k s1 Hm1).
      destruct (m2 !! k) as [s2|]; [|by rewrite Hin, lookup_empty in Hk].
      destruct Hin as (st1 & d' & st2 & Hd & Hl). rewrite Hl in Hk.
      destruct (SchemaDiff_Empty d') eqn:He; [by rewrite lookup_empty in Hk|].
      injection Hk as <-. by exists s1, s2, st1, st2.
    + rewrite Hout, lookup_empty in Hk; [done|].
      intros Hfst. apply list_elem_of_fmap in Hfst as ([k' s1] & -> & Hfst).
      apply elem_of_map_to_list in Hfst. simpl in Hm1. congruence.
  - intros k s1 s2 Hm1 Hm2 Hk. apply elem_of_map_to_list in Hm1.
    specialize (Hin k s1 Hm1). rewrite Hm2 in Hin.
    destruct Hin as (st1 & d & st2 & Hd & Hl). exists st1, d, st2. split; [done|].
    rewrite Hk in Hl. by destruct (SchemaDiff_Empty d).
Qed.

(** X6: when the comparison of two maps of referenced schemas succeeds,
    Deleted is the number of names of the first map that the second lacks
    and Added the number of names of the second that the first lacks,
    both as Go ints. *)
Theorem getSchemaMapsRefsDiff_counts config m1 m2 st r st' :
  getSchemaMapsRefsDiff SchemaDiff_Empty getSchemaDiff config m1 m2 st = (Ok r, st') →
  Deleted r = int_wrap (Z.of_nat (size (filter (λ kv, m2 !! kv.1 = None) m1)))
  ∧ Added r = int_wrap (Z.of_nat (size (filter (λ kv, m1 !! kv.1 = None) m2))).
Proof.
  intros Hrun. destruct (mapsDiff_spec _ _ _ _ _ _ Hrun) as (Hd & Ha & _). by split.
Qed.

(** X7: when the comparison of two maps of referenced schemas succeeds,
    a name is in Modified only if it is in both maps, with the non-empty
    recursive diff of its two schemas, and a name of both maps that is
    not in Modified had an empty recursive diff (the entry is stored by
    addSchemaDiff, which is modelled from the specification). *)
Theorem getSchemaMapsRefsDiff_modified_entries config m1 m2 st r st' :
  getSchemaMapsRefsDiff SchemaDiff_Empty getSchemaDiff config m1 m2 st = (Ok r, st') →
  (∀ k d, Modified r !! k = Some d →
     ∃ s1 s2 st1 st2, m1 !! k = Some s1 ∧ m2 !! k = Some s2
       ∧ getSchemaDiff config s1 s2 st1 = (Ok d, st2)
       ∧ SchemaDiff_Empty d = false)
  ∧ (∀ k s1 s2, m1 !! k = Some s1 → m2 !! k = Some s2 → Modified r !! k = None →
       ∃ st1 d st2, getSchemaDiff config s1 s2 st1 = (Ok d, st2)
         ∧ SchemaDiff_Empty d = true).
Proof.
  intros Hrun. destruct (mapsDiff_spec _ _ _ _ _ _ Hrun) as (_ & _ & Hm & Hn). by split.
Qed.

(** X8: swapping the two maps swaps the two counters: what one direction
    counts as added the other counts as deleted. *)
Theorem getSchemaMapsRefsDiff_swap config m1 m2 st1 st2 r12 r21 st1' st2' :
  getSchemaMapsRefsDiff SchemaDiff_Empty getSchemaDiff config m1 m2 st1 = (Ok r12, st1') →
  getSchemaMapsRefsDiff SchemaDiff_Empty getSchemaDiff config m2 m1 st2 = (Ok r21, st2') →
  Added r12 = Deleted r21 ∧ Deleted r12 = Added r21.
Proof.
  intros H12 H21.
  destruct (mapsDiff_spec _ _ _ _ _ _ H12) as (Hd & Ha & _).
  destruct (mapsDiff_spec _ _ _ _ _ _ H21) as (Hd' & Ha' & _).
  split; congruence.
Qed.

(** Comparing a map with itself, when the recursive diff of each of its
    schemas with itself is empty: nothing is counted and nothing is stored. *)
Lemma loop1_self config m entries : ∀ deleted modified st,
  (∀ k s st0, m !! k = Some s →
     ∃ d st1, getSchemaDiff config s s st0 = (Ok d, st1) ∧ SchemaDiff_Empty d = true) →
  (∀ k v, (k, v) ∈ entries → m !! k = Some v) →
  ∃ st', loop1 config m entries deleted modified st = (Ok (deleted, modified), st').
Proof.
  induction entries as [|[ref schema1] entries IH]; intros deleted modified st Hself Hin.
  - by exists st.
  - cbn [getSchemaMapsRefsDiff_loop1].
    assert (m !! ref = Some schema1) as Hm by (apply Hin; left). rewrite Hm.
    unfold mbind at 1, M_bind at 1, addSchemaDiff, mbind, M_bind, mret, M_ret.
    destruct (Hself ref schema1 st Hm) as (d & st1 & -> & ->). cbn [negb].
    apply IH; [done|]. intros k v Hk. apply Hin. by right.
Qed.

Lemma mapsDiff_self config m st :
  (∀ k s st0, m !! k = Some s →
     ∃ d st1, getSchemaDiff config s s st0 = (Ok d, st1) ∧ SchemaDiff_Empty d = true) →
  ∃ st', mapsDiff config m m st = (Ok SchemaListDiff_zero, st').
Proof.
  intros Hself. unfold getSchemaMapsRefsDiff, mbind, M_bind, mret, M_ret.
  destruct (loop1_self config m (map_to_list m) 0 ∅ st Hself) as (st' & ->).
  { intros k v. apply elem_of_map_to_list. }
  exists st'. rewrite loop2_spec. unfold SchemaListDiff_zero. do 2 f_equal.
  rewrite map_empty_filter_2; [done|]. intros k v Hk. simpl. by rewrite Hk.
Qed.
End RefsDiffFacts.

(** ** The shape of the inline diff, swapping and reordering *)

Section InlineDiffFacts.
Context {Schema : Type} `{EqDecision Schema}.
Context {SchemaDiff Config state error : Type}.
Variable SchemaDiff_Empty : option SchemaDiff → bool.
Variable getSchemaDiff :
  Config → SchemaRefPtr Schema → SchemaRefPtr Schema
  → M (state := state) (error := error) (option SchemaDiff).
Implicit Types (l : SchemaRefs Schema) (s : SchemaRefPtr Schema) (st : state).

Local Abbreviation inlineDiff := (getSchemaListsInlineDiff SchemaDiff_Empty getSchemaDiff).
Local Abbreviation listsDiff := (getSchemaListsDiff SchemaDiff_Empty getSchemaDiff).

Lemma length_one {A} (l : list A) : length l = 1%nat → ∃ x, l = [x].
Proof. destruct l as [|x [|y l]]; try done. by exists x. Qed.

(** The two ways the inline diff runs. *)
Lemma inlineDiff_cases config l1 l2 st :
  (∃ a0 d0 s1 s2,
     getGroupDifference l2 l1 = [a0] ∧ getGroupDifference l1 l2 = [d0]
     ∧ l1 !! d0 = Some s1 ∧ l2 !! a0 = Some s2
     ∧ inlineDiff config l1 l2 st =
         match getSchemaDiff config s1 s2 st with
         | (Ok d, st') =>
             (Ok (if SchemaDiff_Empty d then SchemaListDiff_zero
                  else {| Added := 0; Deleted := 0;
                          Modified :=
                            {[ Sprintf_hash_d (int_add 1 (Z.of_nat d0)) := d ]} |}),
              st')
         | (Err e, st') => (Err e, st')
         | (Panic msg, st') => (Panic msg, st')
         end)
  ∨ (¬ (length (getGroupDifference l2 l1) = 1%nat
        ∧ length (getGroupDifference l1 l2) = 1%nat)
     ∧ inlineDiff config l1 l2 st =
         (Ok {| Added := len (getGroupDifference l2 l1);
                Deleted := len (getGroupDifference l1 l2);
                Modified := ∅ |}, st)).
Proof.
  destruct (decide (length (getGroupDifference l2 l1) = 1%nat
                    ∧ length (getGroupDifference l1 l2) = 1%nat)) as [[Ha Hd]|Hn].
  - left. apply length_one in Ha as [a0 Ha]. apply length_one in Hd as [d0 Hd].
    destruct (getGroupDifference_lookup _ _ _ _ Ha) as [s2 H2].
    destruct (getGroupDifference_lookup _ _ _ _ Hd) as [s1 H1].
    exists a0, d0, s1, s2. repeat (split; [done|]).
    by apply (inlineDiff_single_pair SchemaDiff_Empty getSchemaDiff
                config l1 l2 st a0 d0 s1 s2).
  - right. split; [done|]. by apply inlineDiff_counts.
Qed.

Lemma len_getGroupDifference_bound l1 l2 :
  0 <= len (getGroupDifference l1 l2) <= len l1.
Proof.
  unfold len. destruct (getGroupDifference_indices_bound l1 l2). lia.
Qed.

(** X9: the inline diff fails only when the recursive schema diff of an
    element of each list fails, with that failure; when it succeeds, the
    counters are between zero and the lengths of the lists, and either
    nothing is in Modified, or both counters are zero and Modified holds
    one entry: a non-empty diff under the key made of one plus a position
    of the first list. *)
Theorem getSchemaListsInlineDiff_result_shape config l1 l2 st res st' :
  getSchemaListsInlineDiff SchemaDiff_Empty getSchemaDiff config l1 l2 st = (res, st') →
  match res with
  | Ok r =>
      0 <= Added r <= len l2 ∧ 0 <= Deleted r <= len l1
      ∧ (Modified r = ∅
         ∨ (Added r = 0 ∧ Deleted r = 0
            ∧ ∃ i d, (i < length l1)%nat ∧ SchemaDiff_Empty d = false
                ∧ Modified r = {[ Sprintf_hash_d (int_add 1 (Z.of_nat i)) := d ]}))
  | Err e =>
      ∃ s1 s2, s1 ∈ l1 ∧ s2 ∈ l2 ∧ getSchemaDiff config s1 s2 st = (Err e, st')
  | Panic msg =>
      ∃ s1 s2, s1 ∈ l1 ∧ s2 ∈ l2 ∧ getSchemaDiff config s1 s2 st = (Panic msg, st')
  end.
Proof.
  destruct (inlineDiff_cases config l1 l2 st)
    as [(a0 & d0 & s1 & s2 & Ha & Hd & H1 & H2 & ->)|[Hn ->]].
  - assert (s1 ∈ l1) by (by eapply list_elem_of_lookup_2).
    assert (s2 ∈ l2) by (by eapply list_elem_of_lookup_2).
    apply lookup_lt_Some in H1.
    destruct (getSchemaDiff config s1 s2 st) as [[d|e|msg] st1] eqn:Hdiff;
      intros [= <- <-]; [|by exists s1, s2..].
    pose proof (Zle_0_nat (length l1)). pose proof (Zle_0_nat (length l2)).
    destruct (SchemaDiff_Empty d) eqn:He; unfold len; simpl.
    + split; [lia|]. split; [lia|]. by left.
    + split; [lia|]. split; [lia|]. right. split; [done|]. split; [done|].
      by exists d0, d.
  - intros [= <- <-]. simpl.
    split; [apply len_getGroupDifference_bound|].
    split; [apply len_getGroupDifference_bound|]. by left.
Qed.

(** X10: swapping the two lists swaps the two counters of the inline
    diff. *)
Theorem getSchemaListsInlineDiff_swap config l1 l2 st1 st2 r12 r21 st1' st2' :
  getSchemaListsInlineDiff SchemaDiff_Empty getSchemaDiff config l1 l2 st1
    = (Ok r12, st1') →
  getSchemaListsInlineDiff SchemaDiff_Empty getSchemaDiff config l2 l1 st2
    = (Ok r21, st2') →
  Added r12 = Deleted r21 ∧ Deleted r12 = Added r21.
Proof.
  destruct (inlineDiff_cases config l1 l2 st1)
    as [(a0 & d0 & s1 & s2 & Ha & Hd & H1 & H2 & ->)|[Hn ->]];
  destruct (inlineDiff_cases config l2 l1 st2)
    as [(a0' & d0' & s1' & s2' & Ha' & Hd' & H1' & H2' & ->)|[Hn' ->]].
  - destruct (getSchemaDiff config s1 s2 st1) as [[d|e|msg] sa]; [|done..].
    destruct (getSchemaDiff config s1' s2' st2) as [[d'|e|msg] sb]; [|done..].
    intros [= <- <-] [= <- <-].
    by destruct (SchemaDiff_Empty d), (SchemaDiff_Empty d').
  - destruct Hn'. by rewrite Ha, Hd.
  - destruct Hn. by rewrite Ha', Hd'.
  - by intros [= <- <-] [= <- <-].
Qed.

(** X11: two lists that are reorderings of one another have no inline
    difference: the recursive schema diff is not even called and the state
    is left as it was. *)
Theorem getSchemaListsInlineDiff_permutation config l1 l2 st :
  l1 ≡ₚ l2 →
  getSchemaListsInlineDiff SchemaDiff_Empty getSchemaDiff config l1 l2 st
  = (Ok SchemaListDiff_zero, st).
Proof.
  intros Hp. rewrite inlineDiff_counts.
  - by rewrite !(proj2 (getGroupDifference_nil_submseteq _ _))
      by (by apply Permutation_submseteq).
  - rewrite !(proj2 (getGroupDifference_nil_submseteq _ _))
      by (by apply Permutation_submseteq). simpl. lia.
Qed.

(** X12: the diff of a list of schemas with itself is nil, provided no
    element is nil and the recursive schema diff of each element with
    itself succeeds and is empty. *)
Theorem getSchemaListsDiff_self config l st :
  None ∉ l →
  (∀ s st0, s ∈ l →
     ∃ d st1, getSchemaDiff config s s st0 = (Ok d, st1) ∧ SchemaDiff_Empty d = true) →
  ∃ st', getSchemaListsDiff SchemaDiff_Empty getSchemaDiff config l l st = (Ok None, st').
Proof.
  intros Hn Hself.
  unfold getSchemaListsDiff, getSchemaListsDiffInternal.
  rewrite !filterSchemaRefs_returns_its_argument.
  unfold getSchemaListsRefsDiff, lift, mbind, M_bind, mret, M_ret.
  destruct (toSchemaRefsMap_loop_lookup (error := error) l ∅ Hn) as (m & Hm & Hl).
  unfold toSchemaRefsMap. rewrite Hm.
  destruct (mapsDiff_self SchemaDiff_Empty getSchemaDiff config m st) as (st' & ->).
  { intros k s st0 Hk. apply Hself. rewrite Hl, lookup_empty in Hk.
    destruct (last (List.filter (has_ref k) l)) as [p|] eqn:Hlast; [|done].
    injection Hk as ->.
    apply last_Some_elem_of, list_elem_of_In, filter_In in Hlast as [Hin _].
    by apply list_elem_of_In. }
  exists st'. rewrite inlineDiff_counts.
  - by rewrite (proj2 (getGroupDifference_nil_submseteq l l)).
  - rewrite (proj2 (getGroupDifference_nil_submseteq l l)) by done. simpl. lia.
Qed.
End InlineDiffFacts.

(** ** Filtering a result more than once *)

Lemma filter_sublist {A} (p : A → bool) (l : list A) : List.filter p l `sublist_of` l.
Proof.
  induction l as [|x l IH]; simpl; [constructor|].
  destruct (p x); by constructor.
Qed.

Lemma filter_filter_comm {A} (p q : A → bool) (l : list A) :
  List.filter p (List.filter q l) = List.filter q (List.filter p l).
Proof.
  induction l as [|x l IH]; simpl; [done|].
  destruct (p x) eqn:Hp, (q x) eqn:Hq; simpl; rewrite ?Hp, ?Hq, IH; done.
Qed.

Lemma filter_filter_idemp {A} (p : A → bool) (l : list A) :
  List.filter p (List.filter p l) = List.filter p l.
Proof.
  induction l as [|x l IH]; simpl; [done|].
  destruct (p x) eqn:Hp; simpl; rewrite ?Hp, IH; done.
Qed.

Section FilterComposition.
Context `{RegexpLib}.
Context {EndpointDiff : Type}.
Implicit Types (d : DiffResult (EndpointDiff := EndpointDiff)) (r : Regexp).

(** The result after the filter. *)
Lemma FilterByRegex_result d (filter : string) :
  (FilterByRegex d filter).1
  = match regexp_Compile filter with
    | inl r =>
        {| AddedEndpoints := List.filter (MatchString r) (AddedEndpoints d);
           DeletedEndpoints := List.filter (MatchString r) (DeletedEndpoints d);
           ModifiedEndpoints :=
             base.filter (λ kv, MatchString r kv.1 = true) (ModifiedEndpoints d) |}
    | inr _ => d
    end.
Proof.
  unfold FilterByRegex. destruct (regexp_Compile filter) as [r|err]; [|done].
  cbn [fst]. by rewrite !filterEndpoints_filter, filterModifiedEndpoints_filter.
Qed.

(** X13: filtering only removes: whatever the pattern, the added and
    the deleted endpoints after the filter are sub-sequences of those
    before, the modified endpoints are a sub-map with the same diffs, and
    an empty result stays empty. *)
Theorem FilterByRegex_only_removes d (filter : string) :
  let d' := (FilterByRegex d filter).1 in
  AddedEndpoints d' `sublist_of` AddedEndpoints d
  ∧ DeletedEndpoints d' `sublist_of` DeletedEndpoints d
  ∧ ModifiedEndpoints d' ⊆ ModifiedEndpoints d
  ∧ (DiffResult_empty d = true → DiffResult_empty d' = true).
Proof.
  cbv zeta. rewrite FilterByRegex_result.
  destruct (regexp_Compile filter) as [r|err]; [|done].
  cbn [AddedEndpoints DeletedEndpoints ModifiedEndpoints].
  split; [apply filter_sublist|]. split; [apply filter_sublist|].
  split; [apply map_filter_subseteq|].
  unfold DiffResult_empty, len. rewrite !andb_true_iff, !Z.eqb_eq.
  cbn [AddedEndpoints DeletedEndpoints ModifiedEndpoints].
  intros [[Ha Hd] Hm].
  destruct (AddedEndpoints d), (DeletedEndpoints d); try done.
  assert (ModifiedEndpoints d = ∅) as -> by (apply map_size_empty_iff; lia).
  by rewrite map_filter_empty.
Qed.

(** X14: filtering twice by the same pattern is filtering once, and two
    filters can be applied in either order, whether their patterns
    compile or not. *)
Theorem FilterByRegex_idempotent_and_commutes d (filter1 filter2 : string) :
  (FilterByRegex (FilterByRegex d filter1).1 filter1).1 = (FilterByRegex d filter1).1
  ∧ (FilterByRegex (FilterByRegex d filter1).1 filter2).1
    = (FilterByRegex (FilterByRegex d filter2).1 filter1).1.
Proof.
  rewrite !FilterByRegex_result. split.
  - destruct (regexp_Compile filter1) as [r1|err1]; [|done].
    cbn [AddedEndpoints DeletedEndpoints ModifiedEndpoints].
    rewrite !filter_filter_idemp. f_equal.
    rewrite map_filter_filter. apply map_filter_ext. intros k v _. tauto.
  - destruct (regexp_Compile filter1) as [r1|err1],
             (regexp_Compile filter2) as [r2|err2]; try done.
    cbn [AddedEndpoints DeletedEndpoints ModifiedEndpoints].
    f_equal; [apply filter_filter_comm..|apply map_filter_comm].
Qed.

Lemma run_calls_empty (calls : list EndpointCall) :
  DiffResult_empty (run_calls (EndpointDiff := EndpointDiff) calls) = true ↔ calls = [].
Proof.
  unfold run_calls.
  destruct (run_calls_from (EndpointDiff := EndpointDiff) calls newDiffResult)
    as (Ha & Hd & Hm).
  unfold DiffResult_empty, len. rewrite Ha, Hd, Hm. cbn [newDiffResult
    AddedEndpoints DeletedEndpoints ModifiedEndpoints app].
  split; [|by intros ->].
  destruct calls as [|[e|e] calls]; [done|..]; simpl; intros Hc;
    repeat (apply andb_true_iff in Hc as [Hc ?]); done.
Qed.

(** X15: a new result is empty, and a result stops being empty with the
    first endpoint added to it, as added or as deleted: after any sequence
    of calls, empty() holds exactly when there was no call. *)
Theorem DiffResult_empty_iff_nothing_added (calls : list EndpointCall) :
  DiffResult_empty (newDiffResult (EndpointDiff := EndpointDiff)) = true
  ∧ (DiffResult_empty (run_calls (EndpointDiff := EndpointDiff) calls) = true
     ↔ calls = []).
Proof. split; [done|apply run_calls_empty]. Qed.
End FilterComposition.

(** ** What a method diff stores *)

Section MethodDiffInvariant.
Context `{SubDiffs}.

Lemma unless_empty_Some {A} (empty : option A → bool) (diff : option A) x :
  unless_empty empty diff = Some x → diff = Some x ∧ empty (Some x) = false.
Proof.
  unfold unless_empty. destruct (empty diff) eqn:E; simpl; [done|].
  intros ->. by split.
Qed.

(** X16: the parameters, request body, responses, callbacks and servers
    diffs that getMethodDiff stores are the ones their functions computed
    and are never empty: an empty sub-diff is left nil. *)
Theorem getMethodDiff_stores_no_empty_diff (pathItem1 pathItem2 : Operation) :
  let result := getMethodDiff pathItem1 pathItem2 in
  (∀ x, ParametersDiff_ result = Some x →
        getParametersDiff (op_Parameters pathItem1) (op_Parameters pathItem2) = Some x
        ∧ ParametersDiff_empty (Some x) = false)
  ∧ (∀ x, RequestBodyDiff_ result = Some x →
          getRequestBodyDiff (op_RequestBody pathItem1) (op_RequestBody pathItem2) = Some x
          ∧ RequestBodyDiff_empty (Some x) = false)
  ∧ (∀ x, ResponsesDiff_ result = Some x →
          getResponsesDiff (op_Responses pathItem1) (op_Responses pathItem2) = Some x
          ∧ ResponsesDiff_empty (Some x) = false)
  ∧ (∀ x, CallbacksDiff_ result = Some x →
          getCallbacksDiff (op_Callbacks pathItem1) (op_Callbacks pathItem2) = Some x
          ∧ CallbacksDiff_empty (Some x) = false)
  ∧ (∀ x, ServersDiff_ result = Some x →
          getServersDiff (op_Servers pathItem1) (op_Servers pathItem2) = Some x
          ∧ ServersDiff_empty (Some x) = false).
Proof. cbv zeta. repeat apply conj; intros x Hx; by apply unless_empty_Some. Qed.
End MethodDiffInvariant.

(** ** The two directions of the matching pair the same elements *)

Section Leftover.
Context {A : Type} `{EqDecision A}.
Implicit Types (l avail : list A) (x y : A).

Lemma remove_one_Permutation x avail : x ∈ avail → avail ≡ₚ x :: remove_one x avail.
Proof.
  induction avail as [|y avail IH]; simpl; intros Hx; [by apply elem_of_nil in Hx|].
  destruct (decide (x = y)) as [->|Hne]; [done|].
  apply elem_of_cons in Hx as [Hx|Hx]; [done|].
  rewrite (IH Hx) at 1. apply Permutation_swap.
Qed.

Lemma remove_one_Permutation_proper x avail avail' :
  avail ≡ₚ avail' → remove_one x avail ≡ₚ remove_one x avail'.
Proof.
  intros Hp. destruct (decide (x ∈ avail)) as [Hx|Hx].
  - apply (Permutation_cons_inv (a := x)).
    rewrite <- !remove_one_Permutation; [done| |done]. by rewrite <- Hp.
  - assert (∀ k, x ∉ k → remove_one x k = k) as Hid.
    { induction k as [|y k IHk]; simpl; [done|]. rewrite not_elem_of_cons.
      intros [Hne Hk]. rewrite decide_False by done. by rewrite IHk. }
    rewrite !Hid; [done| |done]. by rewrite <- Hp.
Qed.

Lemma elem_of_remove_one_ne x y avail : x ≠ y → x ∈ remove_one y avail ↔ x ∈ avail.
Proof.
  intros Hne. induction avail as [|z avail IH]; simpl; [done|].
  destruct (decide (y = z)) as [->|Hyz].
  - rewrite elem_of_cons. split; [by right|]. intros [?|?]; [congruence|done].
  - rewrite !elem_of_cons, IH. done.
Qed.

Lemma remove_one_comm x y avail :
  remove_one x (remove_one y avail) = remove_one y (remove_one x avail).
Proof.
  induction avail as [|z avail IH]; simpl; [done|].
  destruct (decide (y = z)) as [->|Hyz], (decide (x = z)) as [->|Hxz]; simpl;
    rewrite ?decide_True, ?decide_False by done; try done.
  by rewrite IH.
Qed.

Lemma leftover_avail_Permutation l : ∀ avail avail',
  avail ≡ₚ avail' → leftover l avail = leftover l avail'.
Proof.
  induction l as [|x l IH]; intros avail avail' Hp; simpl; [done|].
  destruct (decide (x ∈ avail)) as [Hx|Hx].
  - rewrite decide_True by (by rewrite <- Hp).
    by apply IH, remove_one_Permutation_proper.
  - rewrite decide_False by (by rewrite <- Hp). f_equal. by apply IH.
Qed.

Lemma leftover_Permutation l l' :
  l ≡ₚ l' → ∀ avail, leftover l avail = leftover l' avail.
Proof.
  induction 1 as [|x l l' Hp IH|x y l|l l' l'' Hp1 IH1 Hp2 IH2]; intros avail; simpl.
  - done.
  - destruct (decide (x ∈ avail)); by rewrite IH.
  - destruct (decide (x = y)) as [->|Hne]; [done|].
    assert (y ≠ x) as Hne' by done.
    pose proof (elem_of_remove_one_ne x y avail Hne) as Hxy.
    pose proof (elem_of_remove_one_ne y x avail Hne') as Hyx.
    repeat case_decide; try tauto.
    by rewrite remove_one_comm.
  - by rewrite IH1, IH2.
Qed.

Lemma leftover_nil_r l : leftover l [] = length l.
Proof.
  induction l as [|x l IH]; cbn [leftover length]; [done|].
  rewrite decide_False by apply not_elem_of_nil. by rewrite IH.
Qed.

Lemma leftover_unused x l : ∀ avail, x ∉ l → leftover l (x :: avail) = leftover l avail.
Proof.
  induction l as [|y l IH]; intros avail; simpl; [done|].
  rewrite not_elem_of_cons. intros [Hne Hx].
  destruct (decide (y ∈ avail)) as [Hy|Hy].
  - rewrite decide_True by (by right). simpl.
    rewrite decide_False by done. by apply IH.
  - rewrite decide_False; [by rewrite IH|].
    rewrite not_elem_of_cons. by split.
Qed.

(** Pairing the elements of two lists leaves over as many more on one
    side as that side is longer. *)
Lemma leftover_symmetric l1 : ∀ l2,
  (leftover l1 l2 + length l2 = leftover l2 l1 + length l1)%nat.
Proof.
  induction l1 as [|x l1 IH]; intros l2.
  - simpl. rewrite leftover_nil_r. lia.
  - cbn [leftover length]. destruct (decide (x ∈ l2)) as [Hx|Hx].
    + pose proof (remove_one_Permutation x l2 Hx) as Hp.
      rewrite (leftover_Permutation _ _ Hp (x :: l1)). cbn [leftover remove_one].
      rewrite decide_True by left. rewrite decide_True by done.
      specialize (IH (remove_one x l2)).
      apply Permutation_length in Hp. simpl in Hp. lia.
    + rewrite leftover_unused by done. specialize (IH l2). lia.
Qed.
End Leftover.

Section Conservation.
Context {Schema : Type} `{EqDecision Schema}.
Context {SchemaDiff Config state error : Type}.
Variable SchemaDiff_Empty : option SchemaDiff → bool.
Variable getSchemaDiff :
  Config → SchemaRefPtr Schema → SchemaRefPtr Schema
  → M (state := state) (error := error) (option SchemaDiff).
Implicit Types (l : SchemaRefs Schema) (s : SchemaRefPtr Schema) (st : state).

Local Abbreviation inlineDiff := (getSchemaListsInlineDiff SchemaDiff_Empty getSchemaDiff).

Lemma getGroupDifference_from_leftover l1 l2 : ∀ i matched,
  length (getGroupDifference_from i l1 l2 [] matched)
  = leftover l1 (unmatched_from 0 l2 matched).
Proof.
  induction l1 as [|s l1 IH]; intros i matched; simpl; [done|].
  unfold findIndenticalSchema.
  destruct (decide (s ∈ unmatched_from 0 l2 matched)) as [Hs|Hs].
  - destruct (find_from_available _ _ _ _ Hs) as (j & -> & _ & Hp). simpl.
    rewrite IH. apply leftover_avail_Permutation.
    apply (Permutation_cons_inv (a := s)).
    by rewrite <- Hp, <- remove_one_Permutation.
  - rewrite find_from_unavailable by done. simpl.
    rewrite getGroupDifference_from_acc. simpl. by rewrite IH.
Qed.

Lemma getGroupDifference_balance l1 l2 :
  (length (getGroupDifference l1 l2) + length l2
   = length (getGroupDifference l2 l1) + length l1)%nat.
Proof.
  unfold getGroupDifference.
  rewrite !getGroupDifference_from_leftover, !unmatched_from_empty.
  apply leftover_symmetric.
Qed.

(** X17: the two directions of the matching leave over as many more
    schemas on one side as that side is longer; so whenever the inline
    diff succeeds, with or without a modified entry, Added minus Deleted
    is the length of the second list minus the length of the first. *)
Theorem getSchemaListsInlineDiff_balance config l1 l2 st r st' :
  getSchemaListsInlineDiff SchemaDiff_Empty getSchemaDiff config l1 l2 st = (Ok r, st') →
  (length (getGroupDifference l1 l2) + length l2
   = length (getGroupDifference l2 l1) + length l1)%nat
  ∧ Added r - Deleted r = len l2 - len l1.
Proof.
  pose proof (getGroupDifference_balance l1 l2) as Hb. intros Hrun.
  split; [done|]. unfold len.
  destruct (inlineDiff_cases SchemaDiff_Empty getSchemaDiff config l1 l2 st)
    as [(a0 & d0 & s1 & s2 & Ha & Hd & H1 & H2 & Hr)|[Hn Hr]];
    rewrite Hr in Hrun.
  - rewrite Ha, Hd in Hb. simpl in Hb.
    destruct (getSchemaDiff config s1 s2 st) as [[d|e|msg] st1]; [|done..].
    injection Hrun as <- <-. destruct (SchemaDiff_Empty d); simpl; lia.
  - injection Hrun as <- <-. unfold len. simpl. lia.
Qed.
End Conservation.

(** ** The fallback to counts *)

Section FallbackCounts.
Context {Schema : Type} `{EqDecision Schema}.
Context {SchemaDiff Config state error : Type}.
Variable SchemaDiff_Empty : option SchemaDiff → bool.
Variable getSchemaDiff :
  Config → SchemaRefPtr Schema → SchemaRefPtr Schema
  → M (state := state) (error := error) (option SchemaDiff).
Implicit Types (l : SchemaRefs Schema) (s : SchemaRefPtr Schema) (st : state).

(** What the matching loop reports is as many positions as the first list
    has schemas left over, each schema being paired with an occurrence of
    itself still available in the second list. *)
Lemma length_getGroupDifference_leftover l1 l2 :
  length (getGroupDifference l1 l2) = leftover l1 l2.
Proof.
  unfold getGroupDifference.
  by rewrite getGroupDifference_from_leftover, unmatched_from_empty.
Qed.

(** C4: for A=[S1,S2] and B=[S1,S3,S4] with S2 different from S3 and
    from S4, the inline diff has added=2, deleted=1 and no modified
    entry, and so has the whole schema-list diff when the schemas are
    inline.  In general the unmatched schemas of a list are those left
    over when each schema is paired with an occurrence of itself still
    available in the other list ([leftover], a count on the two lists
    alone, not on the matching loop): when the two counts of left-over
    schemas are not both one, the inline diff has these two counts as
    Added and Deleted and no modified entry. *)
Theorem ambiguous_inline_lists_are_counted config s1 s2 s3 s4 st :
  s2 ≠ s3 → s2 ≠ s4 →
  getSchemaListsInlineDiff SchemaDiff_Empty getSchemaDiff config
      [s1; s2] [s1; s3; s4] st
    = (Ok {| Added := 2; Deleted := 1; Modified := ∅ |}, st)
  ∧ (all_inline [s1; s2; s3; s4] →
     getSchemaListsDiff SchemaDiff_Empty getSchemaDiff config
         [s1; s2] [s1; s3; s4] st
       = (Ok (Some {| Added := 2; Deleted := 1; Modified := ∅ |}), st))
  ∧ ∀ l1 l2,
      ¬ (leftover l2 l1 = 1%nat ∧ leftover l1 l2 = 1%nat) →
      getSchemaListsInlineDiff SchemaDiff_Empty getSchemaDiff config l1 l2 st
        = (Ok {| Added := Z.of_nat (leftover l2 l1);
                 Deleted := Z.of_nat (leftover l1 l2);
                 Modified := ∅ |}, st).
Proof.
  intros H3 H4.
  destruct (inline_lists_pair_triple SchemaDiff_Empty getSchemaDiff
              config s1 s2 s3 s4 st H3 H4) as [Hin Hall].
  split; [done|]. split; [done|]. intros l1 l2 Hn.
  rewrite <- !length_getGroupDifference_leftover in Hn.
  rewrite inlineDiff_counts by done. unfold len.
  by rewrite !length_getGroupDifference_leftover.
Qed.
End FallbackCounts.

Lemma ambiguous_inline_lists_are_counted_witness :
  getSchemaListsDiff small_SchemaDiff_Empty small_getSchemaDiff tt
    [schema_one; schema_two] [schema_one; schema_three; schema_four] []
  = (Ok (Some {| Added := 2; Deleted := 1; Modified := ∅ |}), []).
Proof.
  apply (ambiguous_inline_lists_are_counted
           small_SchemaDiff_Empty small_getSchemaDiff tt
           schema_one schema_two schema_three schema_four []).
  - discriminate.
  - discriminate.
  - repeat constructor.
Defined.

(** Two unmatched schemas on each side are counted, not paired. *)
Example unrelated_inline_lists_are_counted :
  getSchemaListsInlineDiff small_SchemaDiff_Empty small_getSchemaDiff tt
    [schema_one; schema_two] [schema_three; schema_four] []
  = (Ok {| Added := 2; Deleted := 2; Modified := ∅ |}, []).
Proof. reflexivity. Qed.

(** ** The further properties on concrete schemas *)

Lemma getSchemaMapsRefsDiff_counts_witness :
  ∃ r, getSchemaMapsRefsDiff small_SchemaDiff_Empty small_getSchemaDiff tt
         {[ "Pet" := schema_Pet; "Owner" := schema_Owner ]}
         {[ "Pet" := schema_Owner; "Cat" := schema_Pet; "Dog" := schema_Pet ]} []
       = (Ok r, [])
     ∧ Deleted r = 1 ∧ Added r = 2.
Proof.
  eexists. split; [vm_compute; reflexivity|].
  edestruct (getSchemaMapsRefsDiff_counts
               small_SchemaDiff_Empty small_getSchemaDiff tt
               {[ "Pet" := schema_Pet; "Owner" := schema_Owner ]}
               {[ "Pet" := schema_Owner; "Cat" := schema_Pet; "Dog" := schema_Pet ]} [])
    as (Hd & Ha); [vm_compute; reflexivity|].
  split; [rewrite Hd|rewrite Ha]; vm_compute; reflexivity.
Defined.

Lemma getSchemaMapsRefsDiff_swap_witness :
  ∃ r12 r21,
    getSchemaMapsRefsDiff small_SchemaDiff_Empty small_getSchemaDiff tt
      {[ "Pet" := schema_Pet; "Owner" := schema_Owner ]} {[ "Pet" := schema_Owner ]} []
    = (Ok r12, [])
    ∧ getSchemaMapsRefsDiff small_SchemaDiff_Empty small_getSchemaDiff tt
        {[ "Pet" := schema_Owner ]} {[ "Pet" := schema_Pet; "Owner" := schema_Owner ]} []
      = (Ok r21, [])
    ∧ Added r12 = Deleted r21 ∧ Deleted r12 = Added r21.
Proof.
  do 2 eexists. split; [vm_compute; reflexivity|]. split; [vm_compute; reflexivity|].
  eapply (getSchemaMapsRefsDiff_swap small_SchemaDiff_Empty small_getSchemaDiff tt
            {[ "Pet" := schema_Pet; "Owner" := schema_Owner ]} {[ "Pet" := schema_Owner ]}
            [] []); vm_compute; reflexivity.
Defined.

Lemma getSchemaListsInlineDiff_result_shape_witness :
  0 <= 2 <= len [schema_one; schema_three; schema_four]
  ∧ 0 <= 1 <= len [schema_one; schema_two].
Proof.
  pose proof (getSchemaListsInlineDiff_result_shape
                small_SchemaDiff_Empty small_getSchemaDiff tt
                [schema_one; schema_two] [schema_one; schema_three; schema_four] []
                (Ok {| Added := 2; Deleted := 1; Modified := ∅ |}) []) as Hshape.
  destruct Hshape as (Ha & Hd & _); [vm_compute; reflexivity|]. by split.
Defined.

Lemma getSchemaListsInlineDiff_swap_witness :
  Added (SchemaDiff := SmallSchemaDiff) {| Added := 2; Deleted := 1; Modified := ∅ |}
  = Deleted (SchemaDiff := SmallSchemaDiff) {| Added := 1; Deleted := 2; Modified := ∅ |}.
Proof.
  apply (getSchemaListsInlineDiff_swap small_SchemaDiff_Empty small_getSchemaDiff tt
           [schema_one; schema_two] [schema_one; schema_three; schema_four] [] []
           {| Added := 2; Deleted := 1; Modified := ∅ |}
           {| Added := 1; Deleted := 2; Modified := ∅ |} [] []);
    vm_compute; reflexivity.
Defined.

Lemma getSchemaListsInlineDiff_permutation_witness :
  getSchemaListsInlineDiff small_SchemaDiff_Empty small_getSchemaDiff tt
    [schema_one; schema_two; schema_three] [schema_three; schema_one; schema_two] []
  = (Ok SchemaListDiff_zero, []).
Proof.
  apply (getSchemaListsInlineDiff_permutation small_SchemaDiff_Empty small_getSchemaDiff).
  change [schema_three; schema_one; schema_two]
    with ([schema_three] ++ [schema_one; schema_two]).
  rewrite Permutation_app_comm. reflexivity.
Defined.

Lemma getSchemaListsDiff_self_witness :
  ∃ st', getSchemaListsDiff small_SchemaDiff_Empty small_getSchemaDiff tt
           [schema_Pet; schema_one; schema_Owner] [schema_Pet; schema_one; schema_Owner] []
         = (Ok None, st').
Proof.
  apply (getSchemaListsDiff_self small_SchemaDiff_Empty small_getSchemaDiff).
  - intros Hin. repeat (apply elem_of_cons in Hin as [Hin|Hin]; [discriminate|]).
    by apply elem_of_nil in Hin.
  - intros s st0 Hin. exists (Some (mkSmallSchemaDiff None None)), st0.
    repeat (apply elem_of_cons in Hin as [->|Hin]; [by split|]).
    by apply elem_of_nil in Hin.
Defined.

Lemma getSchemaListsInlineDiff_balance_witness :
  Added (SchemaDiff := SmallSchemaDiff) {| Added := 2; Deleted := 1; Modified := ∅ |}
  - Deleted (SchemaDiff := SmallSchemaDiff) {| Added := 2; Deleted := 1; Modified := ∅ |}
  = len [schema_one; schema_three; schema_four] - len [schema_one; schema_two].
Proof.
  apply (getSchemaListsInlineDiff_balance small_SchemaDiff_Empty small_getSchemaDiff tt
           [schema_one; schema_two] [schema_one; schema_three; schema_four] []
           {| Added := 2; Deleted := 1; Modified := ∅ |} []).
  vm_compute; reflexivity.
Defined.

Lemma getSchemaMapsRefsDiff_modified_entries_witness :
  ∃ s1 s2 st1 st2,
    ({[ "Pet" := schema_Pet; "Owner" := schema_Owner ]} : gmap _ _) !! "Pet" = Some s1
    ∧ ({[ "Pet" := schema_Owner; "Owner" := schema_Owner ]} : gmap _ _) !! "Pet" = Some s2
    ∧ small_getSchemaDiff tt s1 s2 st1
      = (Ok (Some (mkSmallSchemaDiff (Some ("object", "string")) None)), st2)
    ∧ small_SchemaDiff_Empty (Some (mkSmallSchemaDiff (Some ("object", "string")) None))
      = false.
Proof.
  pose proof (getSchemaMapsRefsDiff_modified_entries
                small_SchemaDiff_Empty small_getSchemaDiff tt
                {[ "Pet" := schema_Pet; "Owner" := schema_Owner ]}
                {[ "Pet" := schema_Owner; "Owner" := schema_Owner ]} []
                (mkSchemaListDiff 0 0
                   {[ "Pet" := Some (mkSmallSchemaDiff
                                       (Some ("object", "string")) None) ]})
                []) as Hentries.
  destruct Hentries as [Hin _]; [vm_compute; reflexivity|].
  apply (Hin "Pet" (Some (mkSmallSchemaDiff (Some ("object", "string")) None))).
  vm_compute; reflexivity.
Defined.

(** ** The text report *)

Section WritesFacts.
#[local] Existing Instance M_ret.
#[local] Existing Instance M_bind.
Local Abbreviation Wr := (M (state := list (list Operand)) (error := Empty_set)).

Lemma writes_ret {A} (P : list Operand → Prop) (a : A) : writes P (mret a : Wr A).
Proof. intros w res w' [= <- <-]. exists []. by rewrite app_nil_r. Qed.

Lemma writes_bind {A B} (P : list Operand → Prop) (c : Wr A) (k : A → Wr B) :
  writes P c → (∀ a, writes P (k a)) → writes P (c ≫= k).
Proof.
  intros Hc Hk w res w'. unfold mbind, M_bind.
  destruct (c w) as [[a|e|msg] w1] eqn:Hw; destruct (Hc _ _ _ Hw) as (new1 & -> & H1).
  - intros Hkw. destruct (Hk a _ _ _ Hkw) as (new2 & -> & H2).
    exists (new1 ++ new2). rewrite app_assoc. split; [done|]. by apply Forall_app.
  - destruct e.
  - intros [= <- <-]. by exists new1.
Qed.

Lemma writes_print (P : list Operand → Prop) (report : Report) output :
  P (addPrefix (level report) output) → writes P (Report_print report output).
Proof. intros HP w res w' [= <- <-]. exists [addPrefix (level report) output]. by split; [|constructor]. Qed.

Lemma writes_deref {A} (P : list Operand → Prop) (p : option A) : writes P (deref p).
Proof.
  destruct p as [a|]; [apply writes_ret|].
  intros w res w' [= <- <-]. exists []. by rewrite app_nil_r.
Qed.

Lemma writes_for_each {A} (P : list Operand → Prop) (l : list A) (body : A → Wr unit) :
  (∀ x, writes P (body x)) → writes P (for_each l body).
Proof.
  intros Hbody. induction l as [|x l IH]; simpl; [apply writes_ret|].
  apply writes_bind; [apply Hbody|]. by intros _.
Qed.

Lemma writes_weaken {A} (P Q : list Operand → Prop) (c : Wr A) :
  (∀ line, P line → Q line) → writes P c → writes Q c.
Proof.
  intros HPQ Hc w res w' Hw. destruct (Hc _ _ _ Hw) as (new & -> & Hnew).
  exists new. split; [done|]. by eapply Forall_impl.
Qed.

(** A loop of prints appends one line per element and does not fail. *)
Lemma for_each_print {A} (report : Report) (f : A → list Operand) (l : list A) w :
  for_each l (λ x, Report_print report (f x)) w
  = (Ok tt, w ++ map (λ x, addPrefix (level report) (f x)) l).
Proof.
  revert w. induction l as [|x l IH]; intros w; simpl.
  - by rewrite app_nil_r.
  - unfold mbind, M_bind. cbn [Report_print]. rewrite IH. by rewrite <- app_assoc.
Qed.

Lemma for_each_ext {A} (l : list A) (body body' : A → Wr unit) :
  (∀ x w, body x w = body' x w) → ∀ w, for_each l body w = for_each l body' w.
Proof.
  intros Hb. induction l as [|x l IH]; intros w; simpl; [done|].
  unfold mbind, M_bind. rewrite Hb.
  destruct (body' x w) as [[[]|e|msg] w1]; [apply IH|done..].
Qed.

(** A loop whose body, when it succeeds, appends at least [n] lines. *)
Lemma for_each_at_least {A} (n : nat) (l : list A) (body : A → Wr unit) :
  (∀ x w w', body x w = (Ok tt, w') → ∃ new, w' = w ++ new ∧ (n ≤ length new)%nat) →
  ∀ w w', for_each l body w = (Ok tt, w') →
          ∃ new, w' = w ++ new ∧ (n * length l ≤ length new)%nat.
Proof.
  intros Hbody. induction l as [|x l IH]; intros w w'; simpl.
  - intros [= <-]. exists []. rewrite app_nil_r. split; [done|]. simpl. lia.
  - unfold mbind, M_bind. destruct (body x w) as [[[]|e|msg] w1] eqn:Hw; [|done..].
    destruct (Hbody _ _ _ Hw) as (new1 & -> & H1). intros Hrest.
    destruct (IH _ _ Hrest) as (new2 & -> & H2).
    exists (new1 ++ new2). rewrite app_assoc. split; [done|].
    rewrite length_app. lia.
Qed.
End WritesFacts.

Section TextReportFacts.
Context {diff_RequestBodyDiff diff_CallbacksDiff diff_SecurityDiff : Type}.
Context {diff_SchemaDiff diff_ContentDiff diff_ResponseDiff : Type}.
#[local] Existing Instance M_ret.
#[local] Existing Instance M_bind.

Local Abbreviation MethodDiffR :=
  (diff_MethodDiff (diff_RequestBodyDiff := diff_RequestBodyDiff)
     (diff_CallbacksDiff := diff_CallbacksDiff) (diff_SecurityDiff := diff_SecurityDiff)
     (diff_SchemaDiff := diff_SchemaDiff) (diff_ContentDiff := diff_ContentDiff)
     (diff_ResponseDiff := diff_ResponseDiff)).
Local Abbreviation DiffR :=
  (diff_Diff (diff_RequestBodyDiff := diff_RequestBodyDiff)
     (diff_CallbacksDiff := diff_CallbacksDiff) (diff_SecurityDiff := diff_SecurityDiff)
     (diff_SchemaDiff := diff_SchemaDiff) (diff_ContentDiff := diff_ContentDiff)
     (diff_ResponseDiff := diff_ResponseDiff)).
Local Abbreviation EndpointsDiffR :=
  (diff_EndpointsDiff (diff_RequestBodyDiff := diff_RequestBodyDiff)
     (diff_CallbacksDiff := diff_CallbacksDiff) (diff_SecurityDiff := diff_SecurityDiff)
     (diff_SchemaDiff := diff_SchemaDiff) (diff_ContentDiff := diff_ContentDiff)
     (diff_ResponseDiff := diff_ResponseDiff)).
Local Abbreviation ParametersDiffR :=
  (diff_ParametersDiff (diff_SchemaDiff := diff_SchemaDiff)
     (diff_ContentDiff := diff_ContentDiff)).
Local Abbreviation ResponsesDiffR :=
  (diff_ResponsesDiff (diff_ResponseDiff := diff_ResponseDiff)).

Variable Diff_Empty : option DiffR → bool.
Variable EndpointsDiff_Empty : option EndpointsDiffR → bool.
Variable rMethodDiff_Empty : option MethodDiffR → bool.
Variable rValueDiff_Empty : option diff_ValueDiff → bool.
Variable rParametersDiff_Empty : option ParametersDiffR → bool.
Variable rRequestBodyDiff_Empty : option diff_RequestBodyDiff → bool.
Variable rResponsesDiff_Empty : option ResponsesDiffR → bool.
Variable rCallbacksDiff_Empty : option diff_CallbacksDiff → bool.
Variable rSecurityDiff_Empty : option diff_SecurityDiff → bool.
Variable rSchemaDiff_Empty : option diff_SchemaDiff → bool.
Variable rContentDiff_Empty : option diff_ContentDiff → bool.

Local Abbreviation printResponses := (Report_printResponses rResponsesDiff_Empty).
Local Abbreviation printParam := (Report_printParam rSchemaDiff_Empty rContentDiff_Empty).
Local Abbreviation printParams :=
  (Report_printParams rParametersDiff_Empty rSchemaDiff_Empty rContentDiff_Empty).
Local Abbreviation printMethod :=
  (Report_printMethod rMethodDiff_Empty rValueDiff_Empty rParametersDiff_Empty
     rRequestBodyDiff_Empty rResponsesDiff_Empty rCallbacksDiff_Empty rSecurityDiff_Empty
     rSchemaDiff_Empty rContentDiff_Empty).

(** The lines of this level or of the next. *)
Local Abbreviation here_or_below report :=
  (λ line, bulleted (level report) line ∨ bulleted (int_add (level report) 1) line).

Lemma bulleted_addPrefix lv output : bulleted lv (addPrefix lv output).
Proof. by exists output. Qed.

Ltac writes_step leaf :=
  first [ leaf
        | apply writes_ret
        | apply writes_deref
        | apply writes_print; first [ left; apply bulleted_addPrefix
                                    | right; apply bulleted_addPrefix
                                    | apply bulleted_addPrefix ]
        | apply writes_for_each; intros ?
        | match goal with
          | |- writes _ (if ?b then _ else _) => destruct b
          | |- writes _ (let '(_, _) := ?p in _) => destruct p
          | |- writes _ (_ ≫= _) => apply writes_bind; [|intros ?]
          end ].

Lemma printResponses_writes report (d : option ResponsesDiffR) :
  writes (bulleted (level report)) (printResponses report d).
Proof. unfold Report_printResponses. repeat writes_step fail. Qed.

Lemma printParam_writes report d :
  writes (bulleted (level report)) (printParam report d).
Proof. unfold Report_printParam, Report_printSchema. repeat writes_step fail. Qed.

Lemma printParams_writes report (d : option ParametersDiffR) :
  writes (here_or_below report) (printParams report d).
Proof.
  unfold Report_printParams.
  repeat writes_step
    ltac:(refine (writes_weaken _ _ _ _ (printParam_writes _ _));
          intros line Hl; by right).
Qed.

Lemma printMethod_writes report (d : option MethodDiffR) :
  writes (here_or_below report) (printMethod report d).
Proof.
  unfold Report_printMethod.
  repeat writes_step
    ltac:(first [ apply printParams_writes
                | refine (writes_weaken _ _ _ _ (printResponses_writes _ _));
                  intros line Hl; by right ]).
Qed.

(** X18: printing a method diff only adds calls of fmt.Fprintln to those
    the writer has received, and the first operand of each call it adds is
    the prefix of the report's level or of the next level (for the details
    of a parameter or of the responses); under a report of level 1, as the
    output of endpoints uses it, the first operand of every call is "*" or
    "  -".  This holds however printMethod ends.  It is a statement about
    calls: an operand, such as a description, may contain line breaks, so a
    line of the text written need not begin with the prefix. *)
Theorem printMethod_calls_are_prefixed report (d : option MethodDiffR) w res w' :
  Report_printMethod rMethodDiff_Empty rValueDiff_Empty rParametersDiff_Empty
    rRequestBodyDiff_Empty rResponsesDiff_Empty rCallbacksDiff_Empty rSecurityDiff_Empty
    rSchemaDiff_Empty rContentDiff_Empty report d w = (res, w') →
  ∃ new, w' = w ++ new
    ∧ Forall (λ call, bulleted (level report) call
                      ∨ bulleted (int_add (level report) 1) call) new
    ∧ (level report = 1 →
       Forall (λ call, ∃ rest, call = OpString "*" :: rest
                               ∨ call = OpString "  -" :: rest) new).
Proof.
  intros Hrun. destruct (printMethod_writes report d _ _ _ Hrun) as (new & -> & Hnew).
  exists new. split; [done|]. split; [done|]. intros Hlv.
  eapply Forall_impl; [exact Hnew|]. rewrite Hlv.
  intros line [[rest ->]|[rest ->]]; exists rest; [by left|by right].
Qed.

(** X19: printing a responses diff never fails on a diff that Empty()
    reports empty, where it writes nothing, nor on a non-nil diff, where
    it writes one line for each added, each deleted and each modified
    response, in this order, each with the bullet of the report's level;
    on a nil diff that Empty() does not report empty it panics before
    writing. *)
Theorem printResponses_one_line_per_response report (d : option ResponsesDiffR) w :
  Report_printResponses rResponsesDiff_Empty report d w =
    if rResponsesDiff_Empty d then (Ok tt, w)
    else match d with
         | None => (Panic "nil pointer dereference", w)
         | Some r =>
             (Ok tt,
              w ++ map (λ added, addPrefix (level report)
                                   [OpString "New response:"; OpString added])
                       (ResponsesDiff_Added r)
                ++ map (λ deleted, addPrefix (level report)
                                     [OpString "Deleted response:"; OpString deleted])
                       (ResponsesDiff_Deleted r)
                ++ map (λ response, addPrefix (level report)
                                      [OpString "Modified response:";
                                       OpString response.1])
                       (map_to_list (ResponsesDiff_Modified r)))
         end.
Proof.
  unfold Report_printResponses. destruct (rResponsesDiff_Empty d); [done|].
  destruct d as [r|]; [|done]. unfold mbind, M_bind. cbn [deref mret M_ret].
  rewrite !for_each_print.
  rewrite (for_each_ext _ _
             (λ response, Report_print report
                            [OpString "Modified response:"; OpString response.1]))
    by (by intros []).
  rewrite for_each_print. by rewrite <- !app_assoc.
Qed.
(** One modified endpoint: its line, its method diff, and an empty line. *)
Lemma Output_modified_at_least_two report endpoint (methodDiff : option MethodDiffR) w w' :
  (Report_print report
     [OpString (Endpoint_Method endpoint); OpString (Endpoint_Path endpoint)];;
   printMethod (Report_indent report) methodDiff;;
   Report_print report [OpString EmptyString]) w = (Ok tt, w') →
  ∃ new, w' = w ++ new ∧ (2 ≤ length new)%nat.
Proof.
  unfold mbind, M_bind. cbn [Report_print].
  destruct (printMethod (Report_indent report) methodDiff _) as [[[]|e|msg] w1] eqn:Hm;
    [|done..].
  destruct (printMethod_writes _ _ _ _ _ Hm) as (new & -> & _).
  intros [= <-]. eexists. rewrite <- !app_assoc. split; [done|].
  rewrite !length_app. simpl. lia.
Qed.

(** X20: what Output writes.  On a diff that Empty() reports empty it
    writes the single line "No changes" and does not fail, even for a nil
    diff; on a non-empty diff whose endpoints diff is empty it writes the
    single line "No endpoint changes"; otherwise, when it succeeds, it
    keeps what was written before and appends at least eight lines of
    headers and separators, one line per added and per deleted endpoint
    and two lines per modified endpoint. *)
Theorem Output_lines report (d : option DiffR) w :
  let Output :=
    Report_Output Diff_Empty EndpointsDiff_Empty rMethodDiff_Empty rValueDiff_Empty
      rParametersDiff_Empty rRequestBodyDiff_Empty rResponsesDiff_Empty
      rCallbacksDiff_Empty rSecurityDiff_Empty rSchemaDiff_Empty rContentDiff_Empty in
  (Diff_Empty d = true →
   Output report d w = (Ok tt, w ++ [addPrefix (level report) [OpString "No changes"]]))
  ∧ (∀ dd, d = Some dd → Diff_Empty d = false →
           EndpointsDiff_Empty (Diff_EndpointsDiff dd) = true →
           Output report d w
           = (Ok tt, w ++ [addPrefix (level report) [OpString "No endpoint changes"]]))
  ∧ (∀ w', Output report d w = (Ok tt, w') → Diff_Empty d = false →
           ∃ dd, d = Some dd
             ∧ (EndpointsDiff_Empty (Diff_EndpointsDiff dd) = false →
                ∃ endpoints new,
                  Diff_EndpointsDiff dd = Some endpoints ∧ w' = w ++ new
                  ∧ (8 + length (EndpointsDiff_Added endpoints)
                     + length (EndpointsDiff_Deleted endpoints)
                     + 2 * size (EndpointsDiff_Modified endpoints) ≤ length new)%nat)).
Proof.
  cbv zeta. unfold Report_Output. split; [by intros ->|]. split.
  - intros dd -> -> Hep. unfold mbind, M_bind. cbn [deref mret M_ret]. by rewrite Hep.
  - intros w' Hrun Hd. rewrite Hd in Hrun. destruct d as [dd|]; [|done].
    exists dd. split; [done|]. intros Hep.
    unfold mbind at 1, M_bind at 1 in Hrun. cbn [deref mret M_ret] in Hrun.
    rewrite Hep in Hrun.
    destruct (Diff_EndpointsDiff dd) as [endpoints|]; [|done].
    exists endpoints. unfold mbind, M_bind in Hrun. cbn [deref mret M_ret] in Hrun.
    cbn [Report_print] in Hrun.
    rewrite (for_each_print report
               (λ e, [OpString (Endpoint_Method e); OpString (Endpoint_Path e)])) in Hrun.
    rewrite (for_each_print report
               (λ e, [OpString (Endpoint_Method e); OpString (Endpoint_Path e)])) in Hrun.
    match type of Hrun with
    | for_each ?l ?body ?w0 = _ =>
        destruct (for_each_at_least 2 l body) with (w := w0) (w' := w')
          as (new & -> & Hlen); [|exact Hrun|]
    end.
    + intros [endpoint methodDiff] w1 w1'.
      exact (Output_modified_at_least_two report endpoint methodDiff w1 w1').
    + eexists. rewrite <- !app_assoc. split; [done|]. split; [done|].
      rewrite !length_app, !length_map. rewrite length_map_to_list in Hlen.
      simpl. lia.
Qed.

(** With an endpoints diff that is nil and that Empty() does not report
    empty, Output writes the header of the new endpoints and its separator,
    and only then fails on the nil pointer. *)
Lemma Output_nil_endpoints_diff report w :
  Diff_Empty (Some {| Diff_EndpointsDiff := None |}) = false →
  EndpointsDiff_Empty None = false →
  Report_Output Diff_Empty EndpointsDiff_Empty rMethodDiff_Empty rValueDiff_Empty
    rParametersDiff_Empty rRequestBodyDiff_Empty rResponsesDiff_Empty
    rCallbacksDiff_Empty rSecurityDiff_Empty rSchemaDiff_Empty rContentDiff_Empty
    report (Some {| Diff_EndpointsDiff := None |}) w
  = (Panic "nil pointer dereference",
     w ++ [addPrefix (level report) [OpString "### New Endpoints"];
           addPrefix (level report) [OpString "-----------------"]]).
Proof.
  intros Hd He. unfold Report_Output. rewrite Hd.
  unfold mbind, M_bind. cbn [deref mret M_ret Diff_EndpointsDiff]. rewrite He.
  unfold Report_print, lift. by rewrite <- app_assoc.
Qed.
End TextReportFacts.

Lemma printMethod_calls_are_prefixed_witness :
  ∃ new,
    [ [OpString "*"; OpString "Description changed from: "; OpValue (VString "List pets");
       OpString "To:"; OpValue (VString "List all pets")];
      [OpString "*"; OpString "Request body changed"];
      [OpString "*"; OpString "Response changed"];
      [OpString "  -"; OpString "New response:"; OpString "201"] ] = [] ++ new
    ∧ Forall (λ call, bulleted 1 call ∨ bulleted (int_add 1 1) call) new
    ∧ (1 = 1 → Forall (λ call, ∃ rest, call = OpString "*" :: rest
                                       ∨ call = OpString "  -" :: rest) new).
Proof.
  apply (printMethod_calls_are_prefixed
           small_is_nil small_is_nil small_is_nil small_is_nil small_is_nil small_is_nil
           small_is_nil small_is_nil small_is_nil
           (mkReport 1) reported_method_diff [] (Ok tt)).
  vm_compute; reflexivity.
Defined.

(** ** The endpoints of a diff are sorted *)

Lemma String_leb_trans (s1 s2 s3 : string) :
  String.leb s1 s2 = true → String.leb s2 s3 = true → String.leb s1 s3 = true.
Proof.
  unfold String.leb. revert s2 s3.
  induction s1 as [|a s1 IH]; intros [|b s2] [|c s3]; simpl; try done.
  unfold Ascii.compare.
  destruct (N.compare_spec (N_of_ascii a) (N_of_ascii b)) as [Hab|Hab|Hab];
    destruct (N.compare_spec (N_of_ascii b) (N_of_ascii c)) as [Hbc|Hbc|Hbc];
    destruct (N.compare_spec (N_of_ascii a) (N_of_ascii c)) as [Hac|Hac|Hac];
    try done; try lia.
  apply IH.
Qed.

Lemma String_leb_false (x y : string) : String.leb x y = false → String.leb y x = true.
Proof. intros Hxy. destruct (String.leb_total x y) as [H|H]; congruence. Qed.

Lemma insert_sorted_Permutation x l : insert_sorted x l ≡ₚ x :: l.
Proof.
  induction l as [|y l IH]; simpl; [done|].
  destruct (String.leb x y); [done|]. rewrite IH. apply Permutation_swap.
Qed.

Lemma sort_strings_Permutation l : sort_strings l ≡ₚ l.
Proof.
  induction l as [|x l IH]; simpl; [done|].
  by rewrite insert_sorted_Permutation, IH.
Qed.

Lemma insert_sorted_sorted x l :
  sorted_strings l = true → sorted_strings (insert_sorted x l) = true.
Proof.
  induction l as [|y l IH]; [done|]. intros Hs.
  cbn [insert_sorted]. destruct (String.leb x y) eqn:Hxy.
  - cbn [sorted_strings]. by rewrite Hxy.
  - apply String_leb_false in Hxy.
    destruct l as [|z l]; [by simpl; rewrite Hxy|].
    cbn [sorted_strings] in Hs. apply andb_true_iff in Hs as [Hyz Hs].
    specialize (IH Hs). cbn [insert_sorted] in *.
    destruct (String.leb x z) eqn:Hxz; cbn [sorted_strings] in *.
    + by rewrite Hxy, Hxz.
    + by rewrite Hyz.
Qed.

Lemma sort_strings_sorted l : sorted_strings (sort_strings l) = true.
Proof. induction l as [|x l IH]; [done|]. by apply insert_sorted_sorted. Qed.

Lemma insert_sorted_comm x y l :
  insert_sorted x (insert_sorted y l) = insert_sorted y (insert_sorted x l).
Proof.
  induction l as [|z l IH]; cbn [insert_sorted].
  - destruct (String.leb x y) eqn:Hxy, (String.leb y x) eqn:Hyx; try done.
    + by rewrite (String.leb_antisym x y).
    + apply String_leb_false in Hxy. congruence.
  - destruct (String.leb x z) eqn:Hxz, (String.leb y z) eqn:Hyz; cbn [insert_sorted].
    + rewrite Hxz, Hyz.
      destruct (String.leb x y) eqn:Hxy, (String.leb y x) eqn:Hyx; try done.
      * by rewrite (String.leb_antisym x y).
      * apply String_leb_false in Hxy. congruence.
    + rewrite Hxz. destruct (String.leb y x) eqn:Hyx.
      * by rewrite (String_leb_trans y x z) in Hyz.
      * cbn [insert_sorted]. by rewrite Hyz.
    + rewrite Hyz. destruct (String.leb x y) eqn:Hxy.
      * by rewrite (String_leb_trans x y z) in Hxz.
      * cbn [insert_sorted]. by rewrite Hxz.
    + by rewrite Hxz, Hyz, IH.
Qed.

(** The sorted list does not depend on the order in which the keys were
    found. *)
Lemma sort_strings_order_irrelevant l l' : l ≡ₚ l' → sort_strings l = sort_strings l'.
Proof.
  induction 1 as [|x l l' _ IH|x y l|l l' l'' _ IH1 _ IH2]; simpl.
  - done.
  - by rewrite IH.
  - apply insert_sorted_comm.
  - by rewrite IH1.
Qed.

Lemma filter_Permutation_bool {A} (p : A → bool) (l l' : list A) :
  l ≡ₚ l' → List.filter p l ≡ₚ List.filter p l'.
Proof.
  induction 1 as [|x l l' _ IH|x y l|l l' l'' _ IH1 _ IH2]; simpl.
  - done.
  - destruct (p x); by rewrite IH.
  - destruct (p x), (p y); try done. apply Permutation_swap.
  - by rewrite IH1.
Qed.

Section EndpointsDiffFacts.
Context {Op EndpointDiff : Type}.
Variable valueDiff : Op → Op → EndpointDiff.
Variable empty : EndpointDiff → bool.
Implicit Types (d : DiffResult (EndpointDiff := EndpointDiff)) (l : list string).

Lemma fold_addAddedEndpoint l d :
  fold_left addAddedEndpoint l d
  = {| AddedEndpoints := AddedEndpoints d ++ l;
       DeletedEndpoints := DeletedEndpoints d;
       ModifiedEndpoints := ModifiedEndpoints d |}.
Proof.
  revert d. induction l as [|x l IH]; intros [a dl m]; simpl.
  - by rewrite app_nil_r.
  - rewrite IH. simpl. by rewrite <- app_assoc.
Qed.

Lemma fold_addDeletedEndpoint l d :
  fold_left addDeletedEndpoint l d
  = {| AddedEndpoints := AddedEndpoints d;
       DeletedEndpoints := DeletedEndpoints d ++ l;
       ModifiedEndpoints := ModifiedEndpoints d |}.
Proof.
  revert d. induction l as [|x l IH]; intros [a dl m]; simpl.
  - by rewrite app_nil_r.
  - rewrite IH. simpl. by rewrite <- app_assoc.
Qed.

(** What the endpoint diff puts in the two containers. *)
Lemma getEndpointsDiff_containers order1 order2 (endpoints1 endpoints2 : gmap string Op) :
  AddedEndpoints (getEndpointsDiff valueDiff empty order1 order2 endpoints1 endpoints2)
  = sort_strings (List.filter (λ k, is_nil (endpoints1 !! k)) order2)
  ∧ DeletedEndpoints (getEndpointsDiff valueDiff empty order1 order2 endpoints1 endpoints2)
    = sort_strings (List.filter (λ k, is_nil (endpoints2 !! k)) order1).
Proof.
  unfold getEndpointsDiff. cbn [AddedEndpoints DeletedEndpoints].
  by rewrite fold_addAddedEndpoint, fold_addDeletedEndpoint.
Qed.

Lemma elem_of_keys_of (endpoints : gmap string Op) k :
  k ∈ keys_of endpoints ↔ is_Some (endpoints !! k).
Proof.
  unfold keys_of. rewrite list_elem_of_fmap. split.
  - intros ([k' v] & -> & Hin). apply elem_of_map_to_list in Hin. by exists v.
  - intros [v Hv]. exists (k, v). split; [done|]. by apply elem_of_map_to_list.
Qed.

Lemma elem_of_sorted_filter (p : string → bool) l k :
  k ∈ sort_strings (List.filter p l) ↔ k ∈ l ∧ p k = true.
Proof.
  rewrite sort_strings_Permutation, !list_elem_of_In, filter_In. done.
Qed.

(** C9: for every pair of input documents, and whatever the orders in
    which the two endpoint maps are ranged over, the added and the
    deleted endpoints of the result are sorted lexicographically by
    endpoint key; they are the keys only in the second, respectively only
    in the first document; and the result is the same for any other
    orders of ranging, so it is reproducible across runs. *)
Theorem endpoints_of_a_diff_are_sorted order1 order2
    (doc1 doc2 : gmap string (gmap string Op)) :
  order1 ≡ₚ keys_of (endpoints_of doc1) →
  order2 ≡ₚ keys_of (endpoints_of doc2) →
  let result := getDiffResult valueDiff empty order1 order2 doc1 doc2 in
  sorted_strings (AddedEndpoints result) = true
  ∧ sorted_strings (DeletedEndpoints result) = true
  ∧ (∀ k, k ∈ AddedEndpoints result
          ↔ endpoints_of doc1 !! k = None ∧ is_Some (endpoints_of doc2 !! k))
  ∧ (∀ k, k ∈ DeletedEndpoints result
          ↔ is_Some (endpoints_of doc1 !! k) ∧ endpoints_of doc2 !! k = None)
  ∧ (∀ order1' order2',
       order1' ≡ₚ keys_of (endpoints_of doc1) →
       order2' ≡ₚ keys_of (endpoints_of doc2) →
       getDiffResult valueDiff empty order1' order2' doc1 doc2 = result).
Proof.
  intros H1 H2. cbv zeta. unfold getDiffResult.
  destruct (getEndpointsDiff_containers order1 order2
              (endpoints_of doc1) (endpoints_of doc2)) as [Ha Hd].
  rewrite Ha, Hd.
  split; [apply sort_strings_sorted|]. split; [apply sort_strings_sorted|].
  split; [|split].
  - intros k. rewrite elem_of_sorted_filter, H2, elem_of_keys_of, is_nil_true. tauto.
  - intros k. rewrite elem_of_sorted_filter, H1, elem_of_keys_of, is_nil_true. tauto.
  - intros order1' order2' H1' H2'. unfold getEndpointsDiff.
    rewrite !fold_addAddedEndpoint, !fold_addDeletedEndpoint.
    cbn [AddedEndpoints DeletedEndpoints ModifiedEndpoints newDiffResult app].
    f_equal; apply sort_strings_order_irrelevant, filter_Permutation_bool.
    + by rewrite H2, H2'.
    + by rewrite H1, H1'.
Qed.
End EndpointsDiffFacts.

Lemma endpoints_of_a_diff_are_sorted_witness :
  AddedEndpoints
    (getDiffResult (λ a b : nat, (a, b)) (λ ab, Nat.eqb ab.1 ab.2)
       (reverse (keys_of (endpoints_of document_one)))
       (reverse (keys_of (endpoints_of document_two)))
       document_one document_two)
  = ["DELETE /pets"; "POST /pets"]%string
  ∧ sorted_strings ["DELETE /pets"; "POST /pets"]%string = true.
Proof.
  destruct (endpoints_of_a_diff_are_sorted (λ a b : nat, (a, b)) (λ ab, Nat.eqb ab.1 ab.2)
              (reverse (keys_of (endpoints_of document_one)))
              (reverse (keys_of (endpoints_of document_two)))
              document_one document_two) as (Hsorted & _);
    [apply reverse_Permutation..|].
  split; [vm_compute; reflexivity|exact Hsorted].
Defined.
